(** * Matrix rain: the per-stream state machine of [matrix_rain.py]

    A shallow embedding of the class [RainStream] (constructor, [_reset],
    [update], [draw]), of [create_streams] and of the loop of [main], with
    the properties of the specification, and further properties of the
    code, stated and proved over it.

    Conventions of the embedding.
    - Python integers are unbounded: they are [Z].
    - A one-character Python [str] is its code point ([glyph]).
    - The module [random] is a global generator.  It is an infinite tape of
      raw integers with a read cursor; every library call consumes one raw
      integer and reduces it to the range the library documents.  Quantifying
      over the tape quantifies over every outcome of the generator.
    - A Python float that the program compares is the exact rational it
      denotes (comparison of doubles is exact), so it is a [Q].
    - A method that assigns attributes of [self] takes the object and returns
      the object after the call; exceptions are the [Raise] results.
    - The curses window is the log of the [addstr] calls made on it. *)

From Stdlib Require Import ZArith QArith Lia Bool.
From stdpp Require Import base list.
From Stdlib Require String.
From Stdlib Require Import Sorted.

Local Open Scope Z_scope.

(** ** Exceptions and the generator monad *)

Inductive exn : Type :=
| ValueError   (* random.randint on an empty range *)
| IndexError.  (* random.choice on an empty sequence, list.pop on [] *)

Inductive result (A : Type) : Type :=
| Ok (a : A)
| Raise (e : exn).
Arguments Ok {A} a.
Arguments Raise {A} e.

Record Rng : Type := mkRng { tape : nat -> Z; cursor : nat }.

Definition M (A : Type) : Type := Rng -> result (A * Rng).

Definition ret {A} (a : A) : M A := fun g => Ok (a, g).

Definition bind {A B} (m : M A) (k : A -> M B) : M B :=
  fun g => match m g with
           | Ok (a, g') => k a g'
           | Raise e => Raise e
           end.

Definition raise {A} (e : exn) : M A := fun _ => Raise e.

Notation "x <- m ;; k" := (bind m (fun x => k))
  (at level 100, m at next level, right associativity).

(** One raw draw from the tape. *)
Definition next_raw : M Z :=
  fun g => Ok (tape g (cursor g), mkRng (tape g) (S (cursor g))).

(** ** The three calls of the module [random] that the program makes *)

(** [random.randint(a, b)]: an integer of [a..b], [ValueError] when the range
    is empty. *)
Definition randint (a b : Z) : M Z :=
  if b <? a then raise ValueError
  else r <- next_raw ;; ret (a + r mod (b - a + 1)).

(** [random.choice(seq)]: an element of [seq], [IndexError] when it is
    empty. *)
Definition choice {A} (seq : list A) : M A :=
  match seq with
  | [] => raise IndexError
  | x :: _ =>
      r <- next_raw ;;
      ret (default x (seq !! Z.to_nat (r mod Z.of_nat (length seq))))
  end.

(** [random.random()]: a double [k / 2^53] with [0 <= k < 2^53]. *)
Definition random : M Q :=
  r <- next_raw ;; ret (Qmake (r mod 2 ^ 53) (2 ^ 53)%positive).

(** [x < y] on floats. *)
Definition Qltb (x y : Q) : bool :=
  Qnum x * Zpos (Qden y) <? Qnum y * Zpos (Qden x).

(** ** Configuration *)

Definition MIN_STREAM_LENGTH : Z := 7.
Definition MAX_STREAM_LENGTH : Z := 38.
Definition STREAM_SPEED_MIN : Z := 1.
Definition STREAM_SPEED_MAX : Z := 15.
(** The double written [0.6]. *)
Definition STREAM_DENSITY : Q :=
  Qmake 5404319552844595 9007199254740992.
Definition FADE_LENGTH : Z := 5.
(** The double written [0.05], the glitch probability of [update]. *)
Definition GLITCH_CHANCE : Q :=
  Qmake 3602879701896397 72057594037927936.

(** [range(a, b)]. *)
Definition range (a b : Z) : list Z := seqZ a (b - a).

Definition glyph : Type := Z.

(** [CHAR_SET = [chr(i) for i in range(0xFF61, 0xFF9F)]]. *)
Definition CHAR_SET : list glyph := range 0xFF61 0xFF9F.

(** ** Curses: attributes and the window *)

Module Curses.
(** The values of ncurses: [COLOR_PAIR(n)] is [n << 8], [A_DIM] and
    [A_BOLD] are bits 20 and 21. *)
Definition color_pair (n : Z) : Z := Z.shiftl n 8.
Definition A_DIM : Z := Z.shiftl 1 20.
Definition A_BOLD : Z := Z.shiftl 1 21.

(** [screen.addstr(y, x, str)] and [screen.addstr(y, x, str, attr)]. *)
Record addstr : Type := Addstr {
  row : Z;
  column : Z;
  text : glyph;
  attr : option Z
}.
End Curses.

Definition HEAD_CHAR_BRIGHTNESS : Z := Curses.A_BOLD.
Definition SECOND_CHAR_BRIGHTNESS : Z := Curses.A_BOLD.

(** The window as the program uses it: the calls made so far, oldest
    first.  Both [addstr] calls of [draw] sit in a [try] whose handler
    passes, so what the window answers never changes what [draw] does. *)
Definition Screen : Type := list Curses.addstr.

(** ** RainStream *)

Record RainStream : Type := mkRainStream {
  col : Z;
  height : Z;
  width : Z;
  max_len : Z;
  min_len : Z;
  length_ : Z;
  y : Z;
  speed : Z;
  chars : list glyph;
  update_counter : Z
}.

Definition set_height (v : Z) (s : RainStream) : RainStream :=
  mkRainStream (col s) v (width s) (max_len s) (min_len s) (length_ s) (y s)
    (speed s) (chars s) (update_counter s).
Definition set_max_len (v : Z) (s : RainStream) : RainStream :=
  mkRainStream (col s) (height s) (width s) v (min_len s) (length_ s) (y s)
    (speed s) (chars s) (update_counter s).
Definition set_length (v : Z) (s : RainStream) : RainStream :=
  mkRainStream (col s) (height s) (width s) (max_len s) (min_len s) v (y s)
    (speed s) (chars s) (update_counter s).
Definition set_y (v : Z) (s : RainStream) : RainStream :=
  mkRainStream (col s) (height s) (width s) (max_len s) (min_len s)
    (length_ s) v (speed s) (chars s) (update_counter s).
Definition set_speed (v : Z) (s : RainStream) : RainStream :=
  mkRainStream (col s) (height s) (width s) (max_len s) (min_len s)
    (length_ s) (y s) v (chars s) (update_counter s).
Definition set_chars (v : list glyph) (s : RainStream) : RainStream :=
  mkRainStream (col s) (height s) (width s) (max_len s) (min_len s)
    (length_ s) (y s) (speed s) v (update_counter s).
Definition set_update_counter (v : Z) (s : RainStream) : RainStream :=
  mkRainStream (col s) (height s) (width s) (max_len s) (min_len s)
    (length_ s) (y s) (speed s) (chars s) v.

(** [len(self.chars)]. *)
Definition len (s : RainStream) : Z := Z.of_nat (length (chars s)).

(** [_get_random_char]. *)
Definition _get_random_char : M glyph := choice CHAR_SET.

(** [[self._get_random_char() for _ in range(n)]]. *)
Fixpoint random_chars (n : nat) : M (list glyph) :=
  match n with
  | O => ret []
  | S k => c <- _get_random_char ;; cs <- random_chars k ;; ret (c :: cs)
  end.

(** [_reset]. *)
Definition _reset (self : RainStream) : M RainStream :=
  l <- (if max_len self <=? min_len self then ret (min_len self)
        else randint (min_len self) (max_len self)) ;;
  let self := set_length l self in
  p <- randint (- length_ self) (-1) ;;
  let self := set_y p self in
  v <- randint STREAM_SPEED_MIN STREAM_SPEED_MAX ;;
  let self := set_speed v self in
  n <- randint 1 (length_ self) ;;
  cs <- random_chars (Z.to_nat n) ;;
  let self := set_chars cs self in
  ret (set_update_counter 0 self).

(** [__init__].  The attributes that [_reset] assigns do not exist before
    the call; they are given placeholders here, which [_reset] overwrites
    without reading (lemma [_reset_overwrites]). *)
Definition __init__ (col height width : Z) : M RainStream :=
  let max_len := Z.min MAX_STREAM_LENGTH (height - 1) in
  let min_len := Z.min MIN_STREAM_LENGTH max_len in
  let min_len := if min_len <=? 2 then 3 else min_len in
  let max_len := if max_len <? min_len then min_len else max_len in
  _reset (mkRainStream col height width max_len min_len 0 0 0 [] 0).

(** [lst.pop()], keeping the list that remains. *)
Definition pop {A} (l : list A) : M (list A) :=
  match l with
  | [] => raise IndexError
  | _ :: _ => ret (removelast l)
  end.

(** [lst[i] = x] for a Python index: negative indices count from the end,
    anything outside raises. *)
Definition setitem {A} (i : Z) (x : A) (l : list A) : M (list A) :=
  let n := Z.of_nat (length l) in
  if (0 <=? i) && (i <? n) then ret (<[Z.to_nat i := x]> l)
  else if (- n <=? i) && (i <? 0) then ret (<[Z.to_nat (n + i) := x]> l)
  else raise IndexError.

(** The body of the glitch loop of [update], over the indices still to
    visit. *)
Fixpoint glitch (idxs : list Z) (cs : list glyph) : M (list glyph) :=
  match idxs with
  | [] => ret cs
  | i :: rest =>
      x <- random ;;
      if Qltb x GLITCH_CHANCE
      then c <- _get_random_char ;; cs' <- setitem i c cs ;; glitch rest cs'
      else glitch rest cs
  end.

(** The glitch effect that ends [update] (source lines 88-95). *)
Definition glitch_chars (self : RainStream) : M RainStream :=
  let change_start_index := 2 in
  if change_start_index <? len self then
    cs <- glitch (range change_start_index (len self)) (chars self) ;;
    ret (set_chars cs self)
  else ret self.

(** [update]. *)
Definition update (self : RainStream) (current_height : Z) : M RainStream :=
  let self := set_height current_height self in
  let self := set_max_len (Z.min MAX_STREAM_LENGTH (height self - 1)) self in
  let self := set_update_counter (update_counter self + 1) self in
  if speed self <=? update_counter self then
    let self := set_y (y self + 1) self in
    let self := set_update_counter 0 self in
    if height self + length_ self <=? y self then _reset self
    else
      new_char <- _get_random_char ;;
      let self := set_chars (new_char :: chars self) self in
      self <- (if length_ self <? len self
               then cs <- pop (chars self) ;; ret (set_chars cs self)
               else ret self) ;;
      glitch_chars self
  else glitch_chars self.

(** The attribute that [draw] computes for index [i] of a buffer of
    [stream_len] glyphs (source lines 109-135).  [effective_fade_len / 2.0]
    is a float division: it is done in [Q]. *)
Definition attributes (stream_len i : Z) : Z :=
  if i =? 0 then
    Z.lor (Curses.color_pair 2) HEAD_CHAR_BRIGHTNESS
  else if (i =? 1) && (1 <? stream_len) then
    Z.lor (Curses.color_pair 1) SECOND_CHAR_BRIGHTNESS
  else
    let effective_fade_len := Z.min FADE_LENGTH (Z.max 1 (stream_len - 2)) in
    let index_from_end := stream_len - 1 - i in
    if index_from_end <? effective_fade_len then
      if Qltb (inject_Z index_from_end)
              (Qdiv (inject_Z effective_fade_len) (Qmake 2 1))
      then Z.lor (Curses.color_pair 1) Curses.A_DIM
      else Curses.color_pair 1
    else Curses.color_pair 1.

(** The loop [for i, char in enumerate(self.chars)] of [draw], from index
    [i] on. *)
Fixpoint draw_loop (self : RainStream) (stream_len i : Z) (cs : list glyph)
    (screen : Screen) : Screen :=
  match cs with
  | [] => screen
  | char :: rest =>
      let current_y := y self - i in
      let screen :=
        if (0 <=? current_y) && (current_y <? height self)
        then screen ++ [Curses.Addstr current_y (col self) char
                          (Some (attributes stream_len i))]
        else screen in
      draw_loop self stream_len (i + 1) rest screen
  end.

(** The blank that [draw] writes over the evicted tail. *)
Definition blank : glyph := 32.

(** [draw].  It assigns no attribute of [self]; the object it returns is
    the one it was given. *)
Definition draw (self : RainStream) (screen : Screen) : RainStream * Screen :=
  let stream_len := len self in
  let screen := draw_loop self stream_len 0 (chars self) screen in
  let screen :=
    if length_ self <=? len self then
      let tail_erase_y := y self - length_ self in
      if (0 <=? tail_erase_y) && (tail_erase_y <? height self)
         && (tail_erase_y <? y self)
      then screen ++ [Curses.Addstr tail_erase_y (col self) blank None]
      else screen
    else screen in
  (self, screen).

(** ** The compositor *)

Section Compositor.
(** The density that [create_streams] compares [random.random()] with: the
    module constant [STREAM_DENSITY], taken as the configuration value it
    is. *)
Variable density : Q.

(** The loop [for col in range(w)] of [create_streams]. *)
Fixpoint build_loop (cols : list Z) (h w : Z)
    (new_streams : list RainStream) : M (list RainStream) :=
  match cols with
  | [] => ret new_streams
  | c :: rest =>
      x <- random ;;
      if Qltb x density
      then s <- __init__ c h w ;; build_loop rest h w (new_streams ++ [s])
      else build_loop rest h w new_streams
  end.

(** [create_streams(w, h)] for a given density. *)
Definition build (w h : Z) : M (list RainStream) :=
  if h <=? 2 then ret [] else build_loop (range 0 w) h w [].
End Compositor.

(** [create_streams] as the program runs it. *)
Definition create_streams (w h : Z) : M (list RainStream) :=
  build STREAM_DENSITY w h.

(** * Vocabulary of the statements *)

(** [returns m g P]: run on generator [g], the computation [m] returns (it
    does not raise) and its value and the generator it leaves satisfy [P]. *)
Definition returns {A} (m : M A) (g : Rng) (P : A -> Rng -> Prop) : Prop :=
  match m g with
  | Ok (a, g') => P a g'
  | Raise _ => False
  end.

(** What [_reset] establishes, from the object [s] it is called on to the
    object [s'] it leaves. *)
Record reset_post (s s' : RainStream) : Prop := {
  reset_col : col s' = col s;
  reset_height : height s' = height s;
  reset_width : width s' = width s;
  reset_max_len : max_len s' = max_len s;
  reset_min_len : min_len s' = min_len s;
  reset_length_lo : min_len s <= length_ s';
  reset_length_hi : length_ s' <= Z.max (min_len s) (max_len s);
  reset_length_fixed : max_len s <= min_len s -> length_ s' = min_len s;
  reset_y : - length_ s' <= y s' <= -1;
  reset_speed : STREAM_SPEED_MIN <= speed s' <= STREAM_SPEED_MAX;
  reset_counter : update_counter s' = 0;
  reset_len : 1 <= len s' <= length_ s';
  reset_chars : Forall (fun c => c ∈ CHAR_SET) (chars s')
}.

(** What the glitch effect may do to a buffer: the size stays, and a glyph
    either stays or, from index 2 on, becomes a glyph of the palette. *)
Definition glitched (cs cs' : list glyph) : Prop :=
  length cs' = length cs
  /\ forall j : nat,
       cs' !! j = cs !! j
       \/ ((2 <= j)%nat /\ exists c, cs' !! j = Some c /\ c ∈ CHAR_SET).

(** The object after the bookkeeping that opens [update] (lines 66-70). *)
Definition counted (s : RainStream) (h : Z) : RainStream :=
  set_update_counter (update_counter s + 1)
    (set_max_len (Z.min MAX_STREAM_LENGTH (h - 1)) (set_height h s)).

(** The object after the move (lines 72-73). *)
Definition moved (s : RainStream) (h : Z) : RainStream :=
  set_update_counter 0 (set_y (y s + 1) (counted s h)).

(** The buffer after the insertion at the head and the eviction at the
    tail (lines 81-86). *)
Definition slid (s : RainStream) (c : glyph) : list glyph :=
  if length_ s <? Z.of_nat (length (c :: chars s))
  then removelast (c :: chars s) else c :: chars s.

(** What one call of [update] does, by the case it falls in. *)
Inductive update_post (s : RainStream) (h : Z) (s' : RainStream) : Prop :=
| post_idle :
    update_counter s + 1 < speed s ->
    s' = set_chars (chars s') (counted s h) ->
    glitched (chars s) (chars s') ->
    update_post s h s'
| post_recycle :
    speed s <= update_counter s + 1 ->
    h + length_ s <= y s + 1 ->
    reset_post (moved s h) s' ->
    update_post s h s'
| post_slide (c : glyph) :
    speed s <= update_counter s + 1 ->
    y s + 1 < h + length_ s ->
    c ∈ CHAR_SET ->
    s' = set_chars (chars s') (moved s h) ->
    glitched (slid s c) (chars s') ->
    update_post s h s'.

(** The visual styles that the specification names. *)
Inductive style : Type :=
| HeadStyle | SecondStyle | DimStyle | NormalFadeStyle | BodyStyle.

(** The attribute of each style: the head is white and bold, the second
    character green and bold, a dim glyph green and dim, the other two plain
    green. *)
Definition style_attr (st : style) : Z :=
  match st with
  | HeadStyle => Z.lor (Curses.color_pair 2) Curses.A_BOLD
  | SecondStyle => Z.lor (Curses.color_pair 1) Curses.A_BOLD
  | DimStyle => Z.lor (Curses.color_pair 1) Curses.A_DIM
  | NormalFadeStyle => Curses.color_pair 1
  | BodyStyle => Curses.color_pair 1
  end.

(** The style of buffer index [i] in the words of the specification:
    index 0 is the head, index 1 the second character, and from index 2 on
    the distance from the tail is compared with the effective fade length
    and with its half. *)
Definition spec_style (buffer_length i : Z) : style :=
  if i =? 0 then HeadStyle
  else if i =? 1 then SecondStyle
  else
    let effective_fade := Z.min FADE_LENGTH (Z.max 1 (buffer_length - 2)) in
    let distance_from_tail := buffer_length - 1 - i in
    if Qlt_le_dec (inject_Z distance_from_tail)
                  (inject_Z effective_fade / (2 # 1))
    then DimStyle
    else if distance_from_tail <? effective_fade then NormalFadeStyle
    else BodyStyle.

(** The glyph writes of the specification: for each glyph at buffer index
    [i], row [position - i], skipped when outside [[0, height)]. *)
Definition spec_glyph_writes (s : RainStream) : list Curses.addstr :=
  concat (imap (fun (i : nat) (c : glyph) =>
                  let row := y s - Z.of_nat i in
                  if decide (0 <= row < height s)
                  then [Curses.Addstr row (col s) c
                          (Some (style_attr (spec_style (len s) (Z.of_nat i))))]
                  else [])
               (chars s)).

(** The condition under which the specification erases the cell of the
    evicted tail. *)
Definition erases (s : RainStream) : Prop :=
  length_ s <= len s
  /\ 0 <= y s - length_ s < height s
  /\ y s - length_ s < y s.

(** A stream as the constructor leaves it for terminal height [h]. *)
Definition constructed (h w : Z) (s : RainStream) : Prop :=
  height s = h /\ width s = w
  /\ min_len s = Z.max 3 (Z.min MIN_STREAM_LENGTH (h - 1))
  /\ max_len s = Z.max 3 (Z.min MAX_STREAM_LENGTH (h - 1))
  /\ min_len s <= length_ s <= max_len s
  /\ 1 <= len s <= length_ s.

(** The states that a stream goes through when the main loop calls
    [update] on it with the same height at every frame. *)
Inductive runs_to (h : Z) (s : RainStream) : RainStream -> Prop :=
| runs_here : runs_to h s s
| runs_step (s1 s2 : RainStream) (g g' : Rng) :
    runs_to h s s1 -> update s1 h g = Ok (s2, g') -> runs_to h s s2.

(** The objects that the program can hold: built by the constructor, then
    updated with any heights. *)
Inductive reachable : RainStream -> Prop :=
| reach_init (c h w : Z) (g g' : Rng) (s : RainStream) :
    __init__ c h w g = Ok (s, g') -> reachable s
| reach_update (s s' : RainStream) (h : Z) (g g' : Rng) :
    reachable s -> update s h g = Ok (s', g') -> reachable s'.

(** The value of a run, when it returns. *)
Definition value {A} (r : result (A * Rng)) : option A :=
  match r with
  | Ok (a, _) => Some a
  | Raise _ => None
  end.

(** A generator whose raw draws vary. *)
Definition sample_rng : Rng :=
  mkRng (fun n => Z.of_nat n * 6364136223846793005 + 1442695040888963407) 0.

(** A stream entering a terminal of 24 rows: five glyphs of a length of
    nine, moving every second frame. *)
Definition falling_stream : RainStream :=
  mkRainStream 4 24 80 23 7 9 2 2 [65377; 65400; 65381; 65412; 65390] 1.

(** A stream built for 50 rows, at row 30 when the terminal has shrunk to
    10 rows, moving every fifth frame. *)
Definition sunk_stream : RainStream :=
  mkRainStream 4 50 80 38 7 7 30 5
    [65377; 65400; 65381; 65412; 65390; 65401; 65433] 0.

(** A stream at full length sliding down the screen. *)
Definition sliding_stream : RainStream :=
  mkRainStream 4 24 80 23 7 7 12 1
    [65377; 65400; 65381; 65412; 65390; 65401; 65433] 0.

(** * The rest of the program: the main loop *)

(** [ord('q')], the escape key and [curses.KEY_RESIZE] (its ncurses
    value). *)
Definition KEY_Q : Z := 113.
Definition KEY_ESC : Z := 27.
Definition KEY_RESIZE : Z := 410.

(** The calls that [main] makes on the window inside its loop, in order:
    [clear()], [erase()], [refresh()], the [addstr] calls of the streams
    and the [addstr] of a message. *)
Inductive call : Type :=
| Clear
| Erase
| Refresh
| Put (w : Curses.addstr)
| PutText (row column : Z) (msg : String.string).

Definition Window : Type := list call.

(** The two messages that [main] shows. *)
Module Messages.
Import Stdlib.Strings.String.
Local Open Scope string_scope.
Definition too_small : string := "Terminal too small!".
Definition waiting : string := "Waiting for streams...".
End Messages.

(** [stream.draw(screen)] on the window of [main]: [draw] appends its
    [addstr] calls to whatever the window holds (lemma [draw_appends]). *)
Definition draw_on (s : RainStream) (win : Window) : Window :=
  win ++ map Put (snd (draw s [])).

(** The local variables of [main] that live across iterations, and the
    window. *)
Record Loop : Type := mkLoop {
  loop_height : Z;
  loop_width : Z;
  streams : list RainStream;
  frame_count : Z;
  window : Window
}.

(** How an iteration of [while True] ends: at its end or a [continue],
    with the variables it leaves, or at a [break]. *)
Inductive outcome : Type :=
| Continue (st : Loop)
| Break.

(** The loop [for stream in streams] of [main]: [update] then [draw] for
    each stream in turn.  The streams are mutated in place; the list
    returned holds them after the frame. *)
Fixpoint tick_streams (height : Z) (ss : list RainStream) (win : Window)
    : M (list RainStream * Window) :=
  match ss with
  | [] => ret ([], win)
  | stream :: rest =>
      stream <- update stream height ;;
      let win := draw_on stream win in
      r <- tick_streams height rest win ;;
      ret (stream :: fst r, snd r)
  end.

(** One iteration of the loop of [main] (source lines 203-248), for the
    key that [getch] returns and the size that [getmaxyx] would report.
    The calls on the window are taken to succeed: the handler of
    [curses.error], which leaves the program, is outside the embedding, as
    are the pauses of [time.sleep]. *)
Definition iteration (key : Z) (maxyx : Z * Z) (st : Loop) : M outcome :=
  let height := loop_height st in
  let width := loop_width st in
  if (key =? KEY_Q) || (key =? KEY_ESC) then ret Break
  else if key =? KEY_RESIZE then
    let new_height := fst maxyx in
    let new_width := snd maxyx in
    if negb (new_height =? height) || negb (new_width =? width) then
      if (new_height <=? 2) || (new_width <=? 0) then
        let win := window st
                   ++ [Clear; PutText 0 0 Messages.too_small; Refresh] in
        ret (Continue (mkLoop new_height new_width [] (frame_count st) win))
      else
        let win := window st ++ [Clear; Refresh] in
        new_streams <- create_streams new_width new_height ;;
        ret (Continue (mkLoop new_height new_width new_streams
                         (frame_count st) win))
    else ret (Continue st)
  else
    let win := window st ++ [Erase] in
    r <- tick_streams height (streams st) win ;;
    let ss := fst r in
    let win := snd r in
    let active_streams_exist :=
      match streams st with [] => false | _ :: _ => true end in
    r <- (if negb active_streams_exist && (0 <? width) && (2 <? height)
          then
            let win := win ++ [PutText (height / 2) (width / 2 - 10)
                                 Messages.waiting] in
            if (50 <? frame_count st)
               && (match ss with [] => true | _ :: _ => false end)
            then new_streams <- create_streams width height ;;
                 ret (new_streams, win)
            else ret (ss, win)
          else ret (ss, win)) ;;
    ret (Continue (mkLoop height width (fst r) (frame_count st + 1)
                     (snd r ++ [Refresh]))).

(** The initialization of [main] (lines 181-192) for a terminal with
    colors: the size is read and the streams are created. *)
Definition start (maxyx : Z * Z) : M Loop :=
  let height := fst maxyx in
  let width := snd maxyx in
  ss <- create_streams width height ;;
  ret (mkLoop height width ss 0 []).

(** The loop run on a sequence of inputs, each the key of [getch] and the
    size of the terminal at that time; it stops at the first [break]. *)
Fixpoint run (inputs : list (Z * (Z * Z))) (st : Loop) : M Loop :=
  match inputs with
  | [] => ret st
  | (key, maxyx) :: rest =>
      o <- iteration key maxyx st ;;
      match o with
      | Continue st' => run rest st'
      | Break => ret st
      end
  end.

(** [n] calls of [update] in a row with the same height. *)
Fixpoint updates (n : nat) (s : RainStream) (h : Z) : M RainStream :=
  match n with
  | O => ret s
  | S k => s' <- update s h ;; updates k s' h
  end.

(** * Vocabulary of the further properties *)

(** The invariant of a stream object. *)
Record well_formed (s : RainStream) : Prop := {
  wf_min_len : 3 <= min_len s <= MIN_STREAM_LENGTH;
  wf_max_len : max_len s <= MAX_STREAM_LENGTH;
  wf_length : min_len s <= length_ s <= MAX_STREAM_LENGTH;
  wf_len : 1 <= len s <= length_ s;
  wf_speed : STREAM_SPEED_MIN <= speed s <= STREAM_SPEED_MAX;
  wf_counter : 0 <= update_counter s < speed s;
  wf_chars : Forall (fun c => c ∈ CHAR_SET) (chars s)
}.

(** A stream that fits a terminal of [h] rows and [w] columns. *)
Definition stream_ok (h w : Z) (s : RainStream) : Prop :=
  height s = h /\ 0 <= col s < w /\ 2 < h /\ well_formed s.

(** The invariant of the loop of [main]. *)
Definition loop_ok (st : Loop) : Prop :=
  Forall (stream_ok (loop_height st) (loop_width st)) (streams st).

(** The stream writes among the calls on the window. *)
Definition puts (calls : list call) : list Curses.addstr :=
  omap (fun c => match c with Put w => Some w | _ => None end) calls.

(** A write inside a terminal of [h] rows and [w] columns. *)
Definition in_terminal (h w : Z) (a : Curses.addstr) : Prop :=
  0 <= Curses.row a < h /\ 0 <= Curses.column a < w.

(** A state of the loop: a terminal of 24 rows and 80 columns with two
    streams, at frame 7. *)
Definition sample_loop : Loop :=
  mkLoop 24 80
    [falling_stream;
     mkRainStream 9 24 80 23 7 7 12 1
       [65377; 65400; 65381; 65412; 65390; 65401; 65433] 0]
    7 [].

(** A state of the loop with no stream, at frame 51. *)
Definition idle_loop : Loop := mkLoop 24 80 [] 51 [].

(** A stream write with non-negative coordinates. *)
Definition on_screen (a : Curses.addstr) : Prop :=
  0 <= Curses.row a /\ 0 <= Curses.column a.

(** * Reasoning about the generator monad *)

Lemma returns_ret {A} (a : A) g (P : A -> Rng -> Prop) :
  P a g -> returns (ret a) g P.
Proof. intros H. exact H. Qed.

Lemma returns_bind {A B} (m : M A) (k : A -> M B) g (P : B -> Rng -> Prop) :
  returns m g (fun a g' => returns (k a) g' P) -> returns (bind m k) g P.
Proof.
  unfold returns, bind. destruct (m g) as [[a g']|e]; [|contradiction].
  intros H. exact H.
Qed.

Lemma returns_mono {A} (m : M A) g (P Q : A -> Rng -> Prop) :
  (forall a g', P a g' -> Q a g') -> returns m g P -> returns m g Q.
Proof.
  unfold returns. intros HPQ. destruct (m g) as [[a g']|e]; [|contradiction].
  apply HPQ.
Qed.

Lemma returns_ok {A} (m : M A) g (P : A -> Rng -> Prop) :
  returns m g P <-> exists a g', m g = Ok (a, g') /\ P a g'.
Proof.
  unfold returns. split.
  - destruct (m g) as [[a g']|e]; [|contradiction].
    intros H. exists a, g'. split; [reflexivity | exact H].
  - intros (a & g' & Hm & HP). rewrite Hm. exact HP.
Qed.

Lemma returns_eq {A} (m : M A) g a g' (P : A -> Rng -> Prop) :
  m g = Ok (a, g') -> returns m g P -> P a g'.
Proof. unfold returns. intros ->. intros H. exact H. Qed.

Lemma returns_if {A} (b : bool) (m1 m2 : M A) g (P : A -> Rng -> Prop) :
  (b = true -> returns m1 g P) -> (b = false -> returns m2 g P) ->
  returns (if b then m1 else m2) g P.
Proof. destruct b; intros H1 H2; [apply H1 | apply H2]; reflexivity. Qed.

(** ** The library calls *)

Lemma randint_returns (a b : Z) g :
  a <= b -> returns (randint a b) g (fun v _ => a <= v <= b).
Proof.
  intros Hab. unfold randint.
  destruct (Z.ltb_spec b a) as [Hlt|_]; [lia|].
  apply returns_bind. unfold returns, next_raw, ret.
  pose proof (Z.mod_pos_bound (tape g (cursor g)) (b - a + 1)). lia.
Qed.

(** Every value of the range is drawn by some tape. *)
Lemma randint_onto (a b v : Z) g :
  a <= v <= b ->
  randint a b (mkRng (fun _ => v - a) (cursor g))
  = Ok (v, mkRng (fun _ => v - a) (S (cursor g))).
Proof.
  intros Hv. unfold randint.
  destruct (Z.ltb_spec b a) as [Hlt|_]; [lia|].
  unfold bind, next_raw, ret. cbn.
  rewrite Z.mod_small by lia. do 2 f_equal. lia.
Qed.

Lemma randint_empty (a b : Z) g : b < a -> randint a b g = Raise ValueError.
Proof.
  intros Hlt. unfold randint.
  destruct (Z.ltb_spec b a) as [_|Hge]; [reflexivity | lia].
Qed.

Lemma choice_returns {A} (seq : list A) g :
  seq <> [] -> returns (choice seq) g (fun x _ => x ∈ seq).
Proof.
  intros Hne. unfold choice. destruct seq as [|x seq']; [congruence|].
  apply returns_bind. unfold returns, next_raw, ret.
  set (l := x :: seq').
  set (k := Z.to_nat (tape g (cursor g) mod Z.of_nat (length l))).
  assert (Hk : (k < length l)%nat).
  { subst k. pose proof (Z.mod_pos_bound (tape g (cursor g))
                           (Z.of_nat (length l))) as Hb.
    assert (0 < Z.of_nat (length l)) by (subst l; cbn [length]; lia). lia. }
  destruct (lookup_lt_is_Some_2 l k Hk) as [c Hc].
  rewrite Hc. cbn. apply list_elem_of_lookup. exists k. exact Hc.
Qed.

Lemma random_returns g :
  returns random g (fun x _ => (0 <= x)%Q /\ (x < 1)%Q).
Proof.
  unfold random. apply returns_bind. unfold returns, next_raw, ret.
  pose proof (Z.mod_pos_bound (tape g (cursor g)) (2 ^ 53)) as Hb.
  assert (0 < 2 ^ 53) by reflexivity.
  unfold Qle, Qlt. cbn [Qnum Qden]. split; lia.
Qed.

Lemma Qltb_lt (x y : Q) : Qltb x y = true <-> (x < y)%Q.
Proof. unfold Qltb, Qlt. apply Z.ltb_lt. Qed.

Lemma CHAR_SET_nonempty : CHAR_SET <> [].
Proof. discriminate. Qed.

Lemma _get_random_char_returns g :
  returns _get_random_char g (fun c _ => c ∈ CHAR_SET).
Proof. apply choice_returns, CHAR_SET_nonempty. Qed.

Lemma random_chars_returns (n : nat) g :
  returns (random_chars n) g
    (fun cs _ => length cs = n /\ Forall (fun c => c ∈ CHAR_SET) cs).
Proof.
  revert g. induction n as [|n IH]; intros g; cbn [random_chars].
  - apply returns_ret. split; [reflexivity | constructor].
  - apply returns_bind.
    eapply returns_mono; [|apply _get_random_char_returns].
    intros c g1 Hc. cbn beta. apply returns_bind.
    eapply returns_mono; [|apply IH].
    intros cs g2 [Hlen Hall]. cbn beta. apply returns_ret.
    split; [cbn; congruence | constructor; assumption].
Qed.

(** * [_reset] *)

Lemma reset_length_returns (s : RainStream) g :
  returns (if max_len s <=? min_len s then ret (min_len s)
           else randint (min_len s) (max_len s)) g
    (fun l _ => min_len s <= l <= Z.max (min_len s) (max_len s)
                /\ (max_len s <= min_len s -> l = min_len s)).
Proof.
  destruct (Z.leb_spec (max_len s) (min_len s)) as [Hle|Hlt].
  - apply returns_ret. split; [lia | reflexivity].
  - eapply returns_mono; [|apply randint_returns; lia].
    intros l g1 Hl. cbn beta in Hl |- *. split; [lia | intros; lia].
Qed.

Lemma _reset_returns (s : RainStream) g :
  1 <= min_len s -> returns (_reset s) g (fun s' _ => reset_post s s').
Proof.
  intros Hmin. unfold _reset. apply returns_bind.
  eapply returns_mono; [|apply reset_length_returns].
  intros l g1 [Hl Hfix]. cbn beta. apply returns_bind.
  eapply returns_mono; [|apply randint_returns; cbn; lia].
  intros p g2 Hp. cbn beta. apply returns_bind.
  eapply returns_mono; [|apply randint_returns; unfold STREAM_SPEED_MIN,
                          STREAM_SPEED_MAX; lia].
  intros v g3 Hv. cbn beta. apply returns_bind.
  eapply returns_mono; [|apply randint_returns; cbn; lia].
  intros n g4 Hn. cbn beta. apply returns_bind.
  eapply returns_mono; [|apply random_chars_returns].
  intros cs g5 [Hlen Hall]. cbn beta. apply returns_ret.
  cbn in Hp, Hn.
  split; cbn; try reflexivity; try assumption; try lia.
  unfold len. cbn. rewrite Hlen. lia.
Qed.

(** [_reset] reads only the attributes that the constructor sets before it
    calls it: two objects that agree on the length bounds are reset alike,
    up to those attributes. *)
Lemma _reset_overwrites (s t : RainStream) g :
  max_len s = max_len t -> min_len s = min_len t ->
  match _reset s g, _reset t g with
  | Ok (s', g1), Ok (t', g2) =>
      g1 = g2 /\ length_ s' = length_ t' /\ y s' = y t' /\ speed s' = speed t'
      /\ chars s' = chars t' /\ update_counter s' = update_counter t'
  | Raise e1, Raise e2 => e1 = e2
  | _, _ => False
  end.
Proof.
  intros Hmax Hmin. unfold _reset, bind. rewrite Hmax, Hmin.
  destruct ((if max_len t <=? min_len t then ret (min_len t)
             else randint (min_len t) (max_len t)) g) as [[l g1]|e];
    [|reflexivity].
  cbn [length_ set_length].
  destruct (randint (- l) (-1) g1) as [[p g2]|e]; [|reflexivity].
  destruct (randint STREAM_SPEED_MIN STREAM_SPEED_MAX g2) as [[v g3]|e];
    [|reflexivity].
  cbn [length_ set_speed set_y set_length].
  destruct (randint 1 l g3) as [[n g4]|e]; [|reflexivity].
  destruct (random_chars (Z.to_nat n) g4) as [[cs g5]|e]; [|reflexivity].
  cbn. repeat split.
Qed.

(** [_reset] raises on an object whose length bounds allow no length of at
    least one: this is why the results below ask for [1 <= min_len], which
    the constructor guarantees. *)
Lemma _reset_raises (s : RainStream) g :
  max_len s <= min_len s -> min_len s < 1 -> _reset s g = Raise ValueError.
Proof.
  intros Hle Hlt. unfold _reset, bind.
  destruct (Z.leb_spec (max_len s) (min_len s)) as [_|?]; [|lia].
  cbn. rewrite randint_empty by lia. reflexivity.
Qed.

(** * The constructor *)

(** The length bounds that [__init__] computes before it calls [_reset]. *)
Lemma __init___returns (c h w : Z) g :
  returns (__init__ c h w) g
    (fun s _ =>
       col s = c /\ height s = h /\ width s = w
       /\ 3 <= min_len s <= max_len s
       /\ max_len s = Z.max 3 (Z.min MAX_STREAM_LENGTH (h - 1))
       /\ min_len s = Z.max 3 (Z.min MIN_STREAM_LENGTH (h - 1))
       /\ - length_ s <= y s <= -1
       /\ 1 <= len s <= length_ s
       /\ min_len s <= length_ s <= max_len s
       /\ Forall (fun x => x ∈ CHAR_SET) (chars s)).
Proof.
  unfold __init__.
  set (mx := Z.min MAX_STREAM_LENGTH (h - 1)).
  set (mn := Z.min MIN_STREAM_LENGTH mx).
  set (mn' := if mn <=? 2 then 3 else mn).
  set (mx' := if mx <? mn' then mn' else mx).
  assert (Hmn : mn' = Z.max 3 (Z.min MIN_STREAM_LENGTH (h - 1))).
  { subst mn' mn mx. unfold MIN_STREAM_LENGTH, MAX_STREAM_LENGTH.
    destruct (Z.leb_spec (Z.min 7 (Z.min 38 (h - 1))) 2); lia. }
  assert (Hmx : mx' = Z.max 3 (Z.min MAX_STREAM_LENGTH (h - 1))).
  { subst mx'. rewrite Hmn. subst mx.
    unfold MIN_STREAM_LENGTH, MAX_STREAM_LENGTH.
    destruct (Z.ltb_spec (Z.min 38 (h - 1)) (Z.max 3 (Z.min 7 (h - 1))));
      lia. }
  eapply returns_mono; [|apply _reset_returns; cbn; lia].
  intros s g' [Hc Hh Hw Hmax Hmin Hlo Hhi _ Hy _ _ Hlen Hall].
  cbn in Hc, Hh, Hw, Hmax, Hmin, Hlo, Hhi.
  rewrite Hc, Hh, Hw, Hmax, Hmin, Hmx, Hmn.
  unfold MIN_STREAM_LENGTH, MAX_STREAM_LENGTH in *.
  repeat split; try assumption; lia.
Qed.

(** * [update] *)

Lemma removelast_cons_length {A} (x : A) (l : list A) :
  length (removelast (x :: l)) = length l.
Proof.
  revert x. induction l as [|z l IH]; intros x; [reflexivity|].
  change (removelast (x :: z :: l)) with (x :: removelast (z :: l)).
  cbn [length]. rewrite IH. reflexivity.
Qed.

Lemma pop_returns {A} (l : list A) g (P : list A -> Rng -> Prop) :
  l <> [] -> P (removelast l) g -> returns (pop l) g P.
Proof. intros Hne HP. destruct l; [congruence | exact HP]. Qed.

Lemma setitem_returns {A} (i : Z) (x : A) (l : list A) g
    (P : list A -> Rng -> Prop) :
  0 <= i < Z.of_nat (length l) -> P (<[Z.to_nat i := x]> l) g ->
  returns (setitem i x l) g P.
Proof.
  intros Hi HP. unfold setitem.
  destruct (Z.leb_spec 0 i); [|lia].
  destruct (Z.ltb_spec i (Z.of_nat (length l))); [|lia].
  exact HP.
Qed.

Lemma glitched_refl (cs : list glyph) : glitched cs cs.
Proof. split; [reflexivity | intros j; left; reflexivity]. Qed.

Lemma glitched_insert (cs cs' : list glyph) (i : nat) (c : glyph) :
  (2 <= i)%nat -> c ∈ CHAR_SET -> glitched (<[i := c]> cs) cs' ->
  glitched cs cs'.
Proof.
  intros Hi Hc [Hlen Hall]. split.
  - rewrite Hlen. apply length_insert.
  - intros j. destruct (Hall j) as [Heq|Hnew]; [|right; exact Hnew].
    destruct (decide (i = j)) as [->|Hne].
    + destruct (decide (j < length cs)%nat) as [Hlt|Hge].
      * right. split; [exact Hi|]. exists c. split; [|exact Hc].
        rewrite Heq. apply list_lookup_insert_eq. exact Hlt.
      * left. rewrite Heq. rewrite list_insert_ge by lia. reflexivity.
    + left. rewrite Heq. apply list_lookup_insert_ne. exact Hne.
Qed.

Lemma glitch_returns (idxs : list Z) (cs : list glyph) g :
  Forall (fun i => 2 <= i < Z.of_nat (length cs)) idxs ->
  returns (glitch idxs cs) g (fun cs' _ => glitched cs cs').
Proof.
  revert cs g. induction idxs as [|i rest IH]; intros cs g Hidx;
    cbn [glitch].
  - apply returns_ret, glitched_refl.
  - inversion Hidx as [|? ? Hi Hrest]; subst.
    apply returns_bind. eapply returns_mono; [|apply random_returns].
    intros x g1 _. cbn beta. apply returns_if; intros _.
    + apply returns_bind.
      eapply returns_mono; [|apply _get_random_char_returns].
      intros c g2 Hc. cbn beta. apply returns_bind.
      apply setitem_returns; [lia|].
      eapply returns_mono; [|apply IH].
      * intros cs' g3 Hg. cbn beta in Hg |- *.
        apply (glitched_insert cs cs' (Z.to_nat i) c); [lia | exact Hc |].
        exact Hg.
      * rewrite length_insert. exact Hrest.
    + apply IH. exact Hrest.
Qed.

Lemma range_bounds (a b : Z) : Forall (fun i => a <= i < b) (range a b).
Proof.
  apply Forall_forall. intros i Hi. unfold range in Hi.
  apply elem_of_seqZ in Hi. lia.
Qed.

Lemma glitch_chars_returns (s : RainStream) g :
  returns (glitch_chars s) g
    (fun s' _ => s' = set_chars (chars s') s /\ glitched (chars s) (chars s')).
Proof.
  unfold glitch_chars. apply returns_if; intros _.
  - apply returns_bind. eapply returns_mono; [|apply glitch_returns].
    + intros cs' g1 Hg. cbn beta in Hg |- *. apply returns_ret.
      split; [reflexivity | exact Hg].
    + unfold len. apply range_bounds.
  - apply returns_ret. split; [destruct s; reflexivity | apply glitched_refl].
Qed.

(** The speed counter does not fire: only the glitch effect runs. *)
Lemma update_idle (s : RainStream) (h : Z) :
  update_counter s + 1 < speed s -> update s h = glitch_chars (counted s h).
Proof.
  intros Hidle. unfold update. cbn [speed update_counter set_height
    set_max_len set_update_counter].
  destruct (Z.leb_spec (speed s) (update_counter s + 1)); [lia|].
  reflexivity.
Qed.

(** The speed counter fires and the whole stream is below the screen: the
    stream is reset and nothing else happens. *)
Lemma update_recycle (s : RainStream) (h : Z) :
  speed s <= update_counter s + 1 -> h + length_ s <= y s + 1 ->
  update s h = _reset (moved s h).
Proof.
  intros Hfire Hout. unfold update. cbn [speed update_counter set_height
    set_max_len set_update_counter set_y height length_ y].
  destruct (Z.leb_spec (speed s) (update_counter s + 1)); [|lia].
  destruct (Z.leb_spec (h + length_ s) (y s + 1)); [|lia].
  reflexivity.
Qed.

(** The speed counter fires and the stream is still in sight: a glyph
    enters at the head, the tail leaves once the buffer is over its
    length, and the glitch effect runs. *)
Lemma update_slide (s : RainStream) (h : Z) :
  speed s <= update_counter s + 1 -> y s + 1 < h + length_ s ->
  update s h =
  (new_char <- _get_random_char ;;
   self <- (if length_ s <? Z.of_nat (length (new_char :: chars s))
            then cs <- pop (new_char :: chars s) ;;
                 ret (set_chars cs (moved s h))
            else ret (set_chars (new_char :: chars s) (moved s h))) ;;
   glitch_chars self).
Proof.
  intros Hfire Hin. unfold update. cbn [speed update_counter set_height
    set_max_len set_update_counter set_y height length_ y].
  destruct (Z.leb_spec (speed s) (update_counter s + 1)); [|lia].
  destruct (Z.leb_spec (h + length_ s) (y s + 1)); [lia|].
  reflexivity.
Qed.

Lemma update_returns (s : RainStream) (h : Z) g :
  1 <= min_len s -> returns (update s h) g (fun s' _ => update_post s h s').
Proof.
  intros Hmin.
  destruct (Z.lt_ge_cases (update_counter s + 1) (speed s)) as [Hidle|Hfire].
  - rewrite update_idle by exact Hidle.
    eapply returns_mono; [|apply glitch_chars_returns].
    intros s' g' [Heq Hg]. cbn beta. apply post_idle; assumption.
  - destruct (Z.le_gt_cases (h + length_ s) (y s + 1)) as [Hout|Hin].
    + rewrite update_recycle by assumption.
      eapply returns_mono; [|apply _reset_returns; exact Hmin].
      intros s' g' Hpost. cbn beta. apply post_recycle; assumption.
    + rewrite update_slide by lia.
      apply returns_bind.
      eapply returns_mono; [|apply _get_random_char_returns].
      intros c g1 Hc. cbn beta. apply returns_bind.
      assert (Hstep : returns
        (if length_ s <? Z.of_nat (length (c :: chars s))
         then cs <- pop (c :: chars s) ;; ret (set_chars cs (moved s h))
         else ret (set_chars (c :: chars s) (moved s h))) g1
        (fun t g2 => t = set_chars (slid s c) (moved s h))).
      { unfold slid. apply returns_if; intros ->.
        - apply returns_bind. apply pop_returns; [discriminate|].
          apply returns_ret. reflexivity.
        - apply returns_ret. reflexivity. }
      eapply returns_mono; [|exact Hstep].
      intros t g2 ->. cbn beta.
      eapply returns_mono; [|apply glitch_chars_returns].
      intros s' g3 [Heq Hg]. cbn beta.
      apply (post_slide s h s' c); try assumption; try lia.
Qed.

(** The partial-correctness form: whatever [update] returns is described
    by [update_post]. *)
Lemma update_inv (s s' : RainStream) (h : Z) g g' :
  1 <= min_len s -> update s h g = Ok (s', g') -> update_post s h s'.
Proof.
  intros Hmin Hrun.
  exact (returns_eq _ _ _ _ _ Hrun (update_returns s h g Hmin)).
Qed.

Lemma slid_length (s : RainStream) (c : glyph) :
  len s <= length_ s -> Z.of_nat (length (slid s c)) <= length_ s.
Proof.
  unfold len, slid. intros Hle.
  destruct (Z.ltb_spec (length_ s) (Z.of_nat (length (c :: chars s))))
    as [Hover|Hfit].
  - rewrite removelast_cons_length. exact Hle.
  - exact Hfit.
Qed.

(** * [draw] *)

Lemma half_lt (d e : Z) :
  (inject_Z d < inject_Z e / (2 # 1))%Q <-> 2 * d < e.
Proof. unfold Qlt, Qdiv, Qmult, Qinv, inject_Z. cbn. lia. Qed.

Lemma attributes_spec (n i : Z) :
  0 <= i < n -> attributes n i = style_attr (spec_style n i).
Proof.
  intros Hi. unfold attributes, spec_style.
  destruct (Z.eqb_spec i 0) as [_|Hi0]; [reflexivity|].
  destruct (Z.eqb_spec i 1) as [_|Hi1].
  - destruct (Z.ltb_spec 1 n); [reflexivity | lia].
  - cbn [andb]. cbv zeta.
    set (e := Z.min FADE_LENGTH (Z.max 1 (n - 2))).
    assert (He : 1 <= e) by (subst e; unfold FADE_LENGTH; lia).
    destruct (Qlt_le_dec (inject_Z (n - 1 - i)) (inject_Z e / (2 # 1)))
      as [Hdim|Hnot].
    + pose proof (proj2 (Qltb_lt _ _) Hdim) as Hb.
      change (Qdiv (inject_Z e) (Qmake 2 1)) with (inject_Z e / (2 # 1))%Q.
      rewrite Hb. apply half_lt in Hdim.
      destruct (Z.ltb_spec (n - 1 - i) e); [reflexivity | lia].
    + assert (Hb : Qltb (inject_Z (n - 1 - i)) (inject_Z e / (2 # 1)) = false).
      { apply not_true_is_false. intros Hb. apply Qltb_lt in Hb.
        exact (Qle_not_lt _ _ Hnot Hb). }
      change (Qdiv (inject_Z e) (Qmake 2 1)) with (inject_Z e / (2 # 1))%Q.
      rewrite Hb.
      destruct (Z.ltb_spec (n - 1 - i) e); reflexivity.
Qed.

Lemma draw_loop_app (s : RainStream) (n i : Z) (cs : list glyph)
    (screen : Screen) :
  draw_loop s n i cs screen = screen ++ draw_loop s n i cs [].
Proof.
  revert i screen. induction cs as [|c cs IH]; intros i screen;
    cbn [draw_loop].
  - rewrite app_nil_r. reflexivity.
  - destruct ((0 <=? y s - i) && (y s - i <? height s)).
    + rewrite IH. rewrite (IH _ ([] ++ _)). rewrite app_assoc. reflexivity.
    + apply IH.
Qed.

(** The writes of the loop, when every index it visits is an index of a
    buffer of [n] glyphs. *)
Lemma draw_loop_writes (s : RainStream) (n : Z) (cs : list glyph) (i : Z) :
  0 <= i -> i + Z.of_nat (length cs) <= n ->
  draw_loop s n i cs [] =
  concat (imap (fun (k : nat) (c : glyph) =>
                  let row := y s - (i + Z.of_nat k) in
                  if decide (0 <= row < height s)
                  then [Curses.Addstr row (col s) c
                          (Some (style_attr (spec_style n (i + Z.of_nat k))))]
                  else [])
               cs).
Proof.
  revert i. induction cs as [|c cs IH]; intros i Hi Hn; [reflexivity|].
  cbn [length] in Hn. cbn [draw_loop]. rewrite imap_cons. cbn [concat].
  rewrite draw_loop_app. rewrite (IH (i + 1)) by lia.
  replace (i + Z.of_nat 0) with i by lia.
  f_equal.
  - destruct (decide (0 <= y s - i < height s)) as [Hin|Hout].
    + destruct (Z.leb_spec 0 (y s - i)); [|lia].
      destruct (Z.ltb_spec (y s - i) (height s)); [|lia].
      cbn. rewrite attributes_spec by lia. reflexivity.
    + destruct (Z.leb_spec 0 (y s - i)); [|reflexivity].
      destruct (Z.ltb_spec (y s - i) (height s)); [lia | reflexivity].
  - f_equal. apply imap_ext. intros k x _. unfold compose.
    replace (i + 1 + Z.of_nat k) with (i + Z.of_nat (S k)) by lia.
    reflexivity.
Qed.

Lemma draw_glyph_writes (s : RainStream) :
  draw_loop s (len s) 0 (chars s) [] = spec_glyph_writes s.
Proof.
  rewrite draw_loop_writes by (unfold len; lia). reflexivity.
Qed.

Lemma spec_glyph_writes_attr (s : RainStream) :
  Forall (fun w => is_Some (Curses.attr w)) (spec_glyph_writes s).
Proof.
  unfold spec_glyph_writes. apply Forall_concat, Forall_forall.
  intros ws Hws. apply list_elem_of_lookup in Hws as [k Hk].
  rewrite list_lookup_imap in Hk.
  destruct (chars s !! k) as [c|]; [|discriminate]. cbn in Hk.
  injection Hk as <-.
  destruct (decide (0 <= y s - Z.of_nat k < height s)).
  - constructor; [eexists; reflexivity | constructor].
  - constructor.
Qed.

(** The blank of [draw] is written exactly under [erases]. *)
Lemma draw_unfold (s : RainStream) (screen : Screen) :
  draw s screen =
  (s, screen ++ spec_glyph_writes s
      ++ (if decide (erases s)
          then [Curses.Addstr (y s - length_ s) (col s) blank None]
          else [])).
Proof.
  unfold draw. cbv zeta. rewrite draw_loop_app, draw_glyph_writes.
  f_equal. unfold erases.
  destruct (Z.leb_spec (length_ s) (len s)) as [Hfull|Hgrow].
  - destruct (Z.leb_spec 0 (y s - length_ s)) as [H0|H0];
      destruct (Z.ltb_spec (y s - length_ s) (height s)) as [H1|H1];
      destruct (Z.ltb_spec (y s - length_ s) (y s)) as [H2|H2];
      cbn [andb]; case_decide; try lia;
      rewrite <- ?app_assoc, ?app_nil_r; reflexivity.
  - case_decide; [lia|]. rewrite app_nil_r. reflexivity.
Qed.

(** * [create_streams] *)

Lemma build_loop_returns (density : Q) (cols : list Z) (h w : Z)
    (acc : list RainStream) g :
  returns (build_loop density cols h w acc) g
    (fun l _ =>
       exists new,
         l = acc ++ new
         /\ Forall (fun s => col s ∈ cols /\ constructed h w s) new
         /\ ((density <= 0)%Q -> new = [])
         /\ ((1 <= density)%Q -> map col new = cols)).
Proof.
  revert acc g. induction cols as [|c rest IH]; intros acc g;
    cbn [build_loop].
  - apply returns_ret. exists []. rewrite app_nil_r.
    repeat split; constructor.
  - apply returns_bind. eapply returns_mono; [|apply random_returns].
    intros x g1 [Hx0 Hx1]. cbn beta.
    destruct (Qltb x density) eqn:Hlt.
    + apply Qltb_lt in Hlt. apply returns_bind.
      eapply returns_mono; [|apply __init___returns].
      intros s g2 (Hc & Hh & Hw & Hmm & Hmax & Hmin & _ & Hlen & Hl & _).
      cbn beta. eapply returns_mono; [|apply IH].
      intros l g3 (new & -> & Hall & _ & Hone). cbn beta.
      exists (s :: new). rewrite <- app_assoc. split; [reflexivity|].
      split; [|split].
      * constructor.
        -- split; [rewrite Hc; left | repeat split; assumption || lia].
        -- eapply Forall_impl; [exact Hall|].
           intros t [Ht Hcon]. split; [right; exact Ht | exact Hcon].
      * intros Hd. exfalso.
        apply (Qlt_irrefl 0). apply Qle_lt_trans with x; [exact Hx0|].
        apply Qlt_le_trans with density; assumption.
      * intros Hd. cbn [map]. rewrite Hc, (Hone Hd). reflexivity.
    + eapply returns_mono; [|apply IH].
      intros l g2 (new & -> & Hall & Hzero & Hone). cbn beta.
      exists new. split; [reflexivity|]. split; [|split].
      * eapply Forall_impl; [exact Hall|].
        intros t [Ht Hcon]. split; [right; exact Ht | exact Hcon].
      * exact Hzero.
      * intros Hd. exfalso.
        assert (Hlt' : (x < density)%Q)
          by (apply Qlt_le_trans with 1%Q; assumption).
        apply Qltb_lt in Hlt'. congruence.
Qed.

Lemma build_returns (density : Q) (w h : Z) g :
  returns (build density w h) g
    (fun l g' =>
       (h <= 2 -> l = [] /\ g' = g)
       /\ Forall (fun s => 0 <= col s < w /\ constructed h w s) l
       /\ ((density <= 0)%Q -> l = [])
       /\ ((1 <= density)%Q -> 2 < h -> map col l = range 0 w)).
Proof.
  unfold build. destruct (Z.leb_spec h 2) as [Hsmall|Hbig].
  - apply returns_ret. repeat split; try constructor; lia.
  - eapply returns_mono; [|apply build_loop_returns].
    intros l g' (new & -> & Hall & Hzero & Hone). cbn beta.
    cbn [app]. split; [lia|]. split; [|split].
    + eapply Forall_impl; [exact Hall|].
      intros s [Hin Hcon]. split; [|exact Hcon].
      unfold range in Hin. apply elem_of_seqZ in Hin. lia.
    + exact Hzero.
    + intros Hd _. exact (Hone Hd).
Qed.

Lemma update_post_min_len (s s' : RainStream) (h : Z) :
  update_post s h s' -> min_len s' = min_len s.
Proof.
  intros [_ -> _|_ _ Hpost|c _ _ _ -> _]; [reflexivity | | reflexivity].
  exact (reset_min_len _ _ Hpost).
Qed.

Lemma update_post_max_len (s s' : RainStream) (h : Z) :
  update_post s h s' -> max_len s' = Z.min MAX_STREAM_LENGTH (h - 1).
Proof.
  intros [_ -> _|_ _ Hpost|c _ _ _ -> _]; [reflexivity | | reflexivity].
  exact (reset_max_len _ _ Hpost).
Qed.

Lemma update_post_len (s s' : RainStream) (h : Z) :
  len s <= length_ s -> update_post s h s' -> len s' <= length_ s'.
Proof.
  intros Hle [_ Heq [Hlen _]|_ _ Hpost|c _ _ _ Heq [Hlen _]].
  - rewrite Heq. unfold len in *. cbn. rewrite Hlen. exact Hle.
  - exact (proj2 (reset_len _ _ Hpost)).
  - rewrite Heq. unfold len. cbn. rewrite Hlen.
    apply slid_length. exact Hle.
Qed.

(** The class invariant: every object the program can hold has
    [min_len >= 3], and its buffer fits its length. *)
Lemma reachable_invariant (s : RainStream) :
  reachable s -> 3 <= min_len s /\ len s <= length_ s.
Proof.
  induction 1 as [c h w g g' s Hinit|s s' h g g' _ [IHmin IHlen] Hupd].
  - pose proof (returns_eq _ _ _ _ _ Hinit (__init___returns c h w g))
      as (_ & _ & _ & Hmm & _ & _ & _ & Hlen & _).
    cbn beta in *. lia.
  - assert (Hpost : update_post s h s') by (eapply update_inv; [lia|eassumption]).
    rewrite (update_post_min_len _ _ _ Hpost).
    split; [exact IHmin | exact (update_post_len _ _ _ IHlen Hpost)].
Qed.

(** * The embedding on concrete inputs *)

(** A terminal of 3 rows: the constructor raises both bounds to 3. *)
Example init_three_rows :
  value (__init__ 0 3 1 sample_rng)
  = Some (mkRainStream 0 3 1 3 3 3 (-2) 8 [65431; 65410] 0).
Proof. vm_compute. reflexivity. Qed.

(** A stream at full length moves one row: a glyph enters at the head and
    the tail glyph 65433 leaves. *)
Example update_sliding_stream :
  value (update sliding_stream 24 sample_rng)
  = Some (mkRainStream 4 24 80 23 7 7 13 1
            [65432; 65377; 65400; 65381; 65412; 65390; 65401] 0).
Proof. vm_compute. reflexivity. Qed.

(** The speed counter of [sunk_stream] goes from 0 to 1 under a speed of
    5: the stream stays at row 30. *)
Example update_sunk_stream :
  value (update sunk_stream 10 sample_rng)
  = Some (mkRainStream 4 10 80 9 7 7 30 5
            [65377; 65400; 65381; 65412; 65390; 65401; 65433] 1).
Proof. vm_compute. reflexivity. Qed.

(** Six columns at the density of the program: four are activated. *)
Example create_streams_six_columns :
  option_map (map col) (value (create_streams 6 24 sample_rng))
  = Some [0; 1; 2; 4].
Proof. vm_compute. reflexivity. Qed.

(** * The properties of the specification *)

(** C1.  [update] keeps the buffer within the target length: if
    [len(chars) <= length] before the call, the call returns and
    [len(chars) <= length] holds after it, for every height and every
    outcome of the generator.  The bound [1 <= min_len] is the class
    invariant of [reachable_invariant] (the constructor makes it 3 at
    least, nothing changes it); without it [_reset] raises
    ([_reset_raises]) and there is no state after the call. *)
Theorem update_keeps_len_le_length (s : RainStream) (current_height : Z)
    (g : Rng) :
  1 <= min_len s -> len s <= length_ s ->
  exists s' g',
    update s current_height g = Ok (s', g') /\ len s' <= length_ s'.
Proof.
  intros Hmin Hle. apply returns_ok.
  eapply returns_mono; [|apply update_returns; exact Hmin].
  intros s' g' Hpost. cbn beta. exact (update_post_len _ _ _ Hle Hpost).
Qed.

Lemma update_keeps_len_le_length_witness :
  1 <= min_len falling_stream /\ len falling_stream <= length_ falling_stream
  /\ exists s' g',
       update falling_stream 24 sample_rng = Ok (s', g')
       /\ len s' <= length_ s'.
Proof.
  assert (H1 : 1 <= min_len falling_stream) by (cbn; lia).
  assert (H2 : len falling_stream <= length_ falling_stream)
    by (unfold len; cbn; lia).
  split; [exact H1|]. split.
  - exact H2.
  - exact (update_keeps_len_le_length falling_stream 24 sample_rng H1 H2).
Defined.

(** C2, as the specification words it, fails: a stream below the screen
    whose speed counter does not fire on this tick is left where it is.
    Here [y = 30 >= 10 + 7] before the call, [speed = 5] and the counter
    goes from 0 to 1; after the call [y] is still 30. *)
Lemma update_recycles_counterexample :
  exists s' g',
    10 + length_ sunk_stream <= y sunk_stream
    /\ update sunk_stream 10 sample_rng = Ok (s', g')
    /\ ~ (- length_ s' <= y s' <= -1).
Proof.
  eexists. eexists. split; [cbn; lia|]. split; [reflexivity|].
  cbn. lia.
Qed.

(** C2, amended.  A stream (with [min_len >= 1], as every stream the
    program holds) with [y >= current_height + length] before a tick on
    which the speed counter fires ([update_counter + 1 >= speed])
    has recycled after [update]: [y] is in [[-length', -1]] for the new
    length, and the buffer is freshly drawn, between 1 and [length'] glyphs
    of the palette, whatever the buffer held before. *)
Theorem update_recycles (s : RainStream) (current_height : Z) (g : Rng) :
  1 <= min_len s ->
  current_height + length_ s <= y s ->
  speed s <= update_counter s + 1 ->
  exists s' g',
    update s current_height g = Ok (s', g')
    /\ - length_ s' <= y s' <= -1
    /\ 1 <= len s' <= length_ s'
    /\ Forall (fun c => c ∈ CHAR_SET) (chars s')
    /\ forall old : list glyph,
         update (set_chars old s) current_height g = Ok (s', g').
Proof.
  intros Hmin Hout Hfire.
  assert (Hrun : update s current_height = _reset (moved s current_height))
    by (apply update_recycle; lia).
  pose proof (_reset_returns (moved s current_height) g Hmin) as Hret.
  apply returns_ok in Hret as (s' & g' & Hreset & Hpost).
  exists s', g'. rewrite Hrun. split; [exact Hreset|].
  split; [exact (reset_y _ _ Hpost)|].
  split; [exact (reset_len _ _ Hpost)|].
  split; [exact (reset_chars _ _ Hpost)|].
  intros old. rewrite update_recycle by (cbn; lia).
  rewrite <- Hreset. reflexivity.
Qed.

Lemma update_recycles_witness :
  1 <= min_len sunk_stream
  /\ 10 + length_ sunk_stream <= y sunk_stream
  /\ speed (set_speed 1 sunk_stream)
     <= update_counter (set_speed 1 sunk_stream) + 1
  /\ exists s' g',
       update (set_speed 1 sunk_stream) 10 sample_rng = Ok (s', g')
       /\ - length_ s' <= y s' <= -1
       /\ 1 <= len s' <= length_ s'
       /\ Forall (fun c => c ∈ CHAR_SET) (chars s')
       /\ forall old : list glyph,
            update (set_chars old (set_speed 1 sunk_stream)) 10 sample_rng
            = Ok (s', g').
Proof.
  assert (H1 : 1 <= min_len (set_speed 1 sunk_stream)) by (cbn; lia).
  assert (H2 : 10 + length_ (set_speed 1 sunk_stream)
               <= y (set_speed 1 sunk_stream)) by (cbn; lia).
  assert (H3 : speed (set_speed 1 sunk_stream)
               <= update_counter (set_speed 1 sunk_stream) + 1)
    by (cbn; lia).
  split; [exact H1|]. split; [exact H2|]. split; [exact H3|].
  exact (update_recycles (set_speed 1 sunk_stream) 10 sample_rng H1 H2 H3).
Defined.

(** C3, as the specification words it, fails on the length: on a terminal
    of 3 rows the constructor makes [min_len = max_len = 3], the first
    [update] recomputes [max_len = min(38, 3 - 1) = 2], and a reset of that
    stream takes [length = min_len = 3], which is not in
    [[min_len, max_len] = [3, 2]]. *)
Lemma reset_length_counterexample :
  exists s0 g1 s g2 s' g3,
    __init__ 0 3 1 sample_rng = Ok (s0, g1)
    /\ update s0 3 g1 = Ok (s, g2)
    /\ _reset s g2 = Ok (s', g3)
    /\ ~ (min_len s' <= length_ s' <= max_len s').
Proof.
  do 6 eexists. split; [vm_compute; reflexivity|].
  split; [vm_compute; reflexivity|]. split; [vm_compute; reflexivity|].
  cbn. lia.
Qed.

(** C3, amended.  For a stream with [min_len >= 1], as every stream the
    program holds, [_reset] returns, and immediately after: [length] is in
    [[min_len, max_len]] when [min_len <= max_len] and is exactly [min_len]
    when [min_len >= max_len]; [y] is in [[-length, -1]]; [speed] is in
    [[STREAM_SPEED_MIN, STREAM_SPEED_MAX]]; [update_counter = 0]; the buffer
    holds between 1 and [length] glyphs, each of the palette. *)
Theorem reset_establishes (s : RainStream) (g : Rng) :
  1 <= min_len s ->
  exists s' g',
    _reset s g = Ok (s', g')
    /\ (min_len s' <= max_len s' -> min_len s' <= length_ s' <= max_len s')
    /\ (max_len s' <= min_len s' -> length_ s' = min_len s')
    /\ - length_ s' <= y s' <= -1
    /\ STREAM_SPEED_MIN <= speed s' <= STREAM_SPEED_MAX
    /\ update_counter s' = 0
    /\ 1 <= len s' <= length_ s'
    /\ Forall (fun c => c ∈ CHAR_SET) (chars s').
Proof.
  intros Hmin. apply returns_ok.
  eapply returns_mono; [|apply _reset_returns; exact Hmin].
  intros s' g' [_ _ _ Hmax Hmn Hlo Hhi Hfix Hy Hv Hc Hlen Hall]. cbn beta.
  rewrite Hmax, Hmn.
  split; [intros Hle; lia|]. split; [exact Hfix|].
  repeat split; assumption || lia.
Qed.

Lemma reset_establishes_witness :
  1 <= min_len falling_stream
  /\ exists s' g',
       _reset falling_stream sample_rng = Ok (s', g')
       /\ (min_len s' <= max_len s' -> min_len s' <= length_ s' <= max_len s')
       /\ (max_len s' <= min_len s' -> length_ s' = min_len s')
       /\ - length_ s' <= y s' <= -1
       /\ STREAM_SPEED_MIN <= speed s' <= STREAM_SPEED_MAX
       /\ update_counter s' = 0
       /\ 1 <= len s' <= length_ s'
       /\ Forall (fun c => c ∈ CHAR_SET) (chars s').
Proof.
  assert (H1 : 1 <= min_len falling_stream) by (cbn; lia).
  split; [exact H1|].
  exact (reset_establishes falling_stream sample_rng H1).
Defined.

(** C4.  For a stream with at least two glyphs, [draw] gives index 0 the
    head style and index 1 the second-character style; every index from 2
    on gets, with [effective_fade = min(FADE_LENGTH, max(1, len - 2))] and
    [distance_from_tail = len - 1 - i], the dim style if
    [distance_from_tail < effective_fade / 2], the normal-fade style if
    [distance_from_tail < effective_fade], and the body style otherwise.
    The writes of [draw] are, in buffer order and for the rows on the
    screen, each glyph with the attribute of that style; only the erase of
    the tail, which has no attribute, may follow. *)
Theorem draw_styles (s : RainStream) (screen : Screen) :
  2 <= len s ->
  attributes (len s) 0 = style_attr HeadStyle
  /\ attributes (len s) 1 = style_attr SecondStyle
  /\ (forall i : Z,
        2 <= i < len s ->
        let effective_fade := Z.min FADE_LENGTH (Z.max 1 (len s - 2)) in
        let distance_from_tail := len s - 1 - i in
        attributes (len s) i =
        style_attr
          (if Qlt_le_dec (inject_Z distance_from_tail)
                         (inject_Z effective_fade / (2 # 1))
           then DimStyle
           else if distance_from_tail <? effective_fade then NormalFadeStyle
           else BodyStyle))
  /\ exists erase,
       snd (draw s screen) = screen ++ spec_glyph_writes s ++ erase
       /\ Forall (fun w => Curses.attr w = None) erase.
Proof.
  intros Hlen. split; [reflexivity|]. split.
  { rewrite attributes_spec by lia. reflexivity. }
  split.
  { intros i Hi. cbv zeta. rewrite attributes_spec by lia.
    unfold spec_style.
    destruct (Z.eqb_spec i 0); [lia|]. destruct (Z.eqb_spec i 1); [lia|].
    reflexivity. }
  rewrite draw_unfold. cbn [snd]. eexists. split; [reflexivity|].
  case_decide; repeat constructor.
Qed.

Lemma draw_styles_witness :
  2 <= len sliding_stream
  /\ attributes (len sliding_stream) 0 = style_attr HeadStyle
  /\ attributes (len sliding_stream) 1 = style_attr SecondStyle
  /\ (forall i : Z,
        2 <= i < len sliding_stream ->
        let effective_fade :=
          Z.min FADE_LENGTH (Z.max 1 (len sliding_stream - 2)) in
        let distance_from_tail := len sliding_stream - 1 - i in
        attributes (len sliding_stream) i =
        style_attr
          (if Qlt_le_dec (inject_Z distance_from_tail)
                         (inject_Z effective_fade / (2 # 1))
           then DimStyle
           else if distance_from_tail <? effective_fade then NormalFadeStyle
           else BodyStyle))
  /\ exists erase,
       snd (draw sliding_stream []) = [] ++ spec_glyph_writes sliding_stream
                                        ++ erase
       /\ Forall (fun w => Curses.attr w = None) erase.
Proof.
  assert (H1 : 2 <= len sliding_stream) by (unfold len; cbn; lia).
  split; [exact H1|].
  exact (draw_styles sliding_stream [] H1).
Defined.

(** The seven glyphs of [sliding_stream] as [draw] writes them, head
    first: head, second character, then the fade zone of five glyphs, two
    normal and three dim (the distances 0, 1, 2 from the tail are below
    5 / 2), then the erase. *)
Example draw_sliding_stream :
  snd (draw sliding_stream []) =
  [Curses.Addstr 12 4 65377 (Some (style_attr HeadStyle));
   Curses.Addstr 11 4 65400 (Some (style_attr SecondStyle));
   Curses.Addstr 10 4 65381 (Some (style_attr NormalFadeStyle));
   Curses.Addstr 9 4 65412 (Some (style_attr NormalFadeStyle));
   Curses.Addstr 8 4 65390 (Some (style_attr DimStyle));
   Curses.Addstr 7 4 65401 (Some (style_attr DimStyle));
   Curses.Addstr 6 4 65433 (Some (style_attr DimStyle));
   Curses.Addstr 5 4 blank None].
Proof. reflexivity. Qed.

(** C5, as the specification words it, fails for a terminal of 3 rows: the
    constructor raises [min_len] to 3 and then [max_len] to 3, above
    [height - 1 = 2]. *)
Lemma init_bounds_counterexample :
  exists s g',
    __init__ 0 3 1 sample_rng = Ok (s, g')
    /\ ~ (1 <= min_len s <= max_len s /\ max_len s <= 3 - 1).
Proof.
  do 2 eexists. split; [vm_compute; reflexivity|]. cbn. lia.
Qed.

(** C5, amended.  For a terminal of any height the constructor returns a
    stream with [1 <= min_len <= max_len <= max(3, height - 1)]: the bound
    is [height - 1] from 4 rows on, and 3 below. *)
Theorem init_bounds (c h w : Z) (g : Rng) :
  exists s g',
    __init__ c h w g = Ok (s, g')
    /\ 1 <= min_len s <= max_len s
    /\ max_len s <= Z.max 3 (h - 1).
Proof.
  apply returns_ok. eapply returns_mono; [|apply __init___returns].
  intros s g' (_ & _ & _ & Hmm & Hmax & _). cbn beta.
  unfold MAX_STREAM_LENGTH in Hmax. lia.
Qed.

(** C6.  With width 1, height 3 and density 1.0, [create_streams] yields
    exactly one stream, at column 0, with length 3; and in every state
    that stream reaches through the frames of the main loop its length is
    3, and a reset there sets the length to 3 again. *)
Theorem build_1_3_dense (g : Rng) :
  exists s g',
    build 1%Q 1 3 g = Ok ([s], g')
    /\ col s = 0
    /\ length_ s = 3
    /\ forall t, runs_to 3 s t ->
         length_ t = 3
         /\ forall g1, exists t' g2,
              _reset t g1 = Ok (t', g2) /\ length_ t' = 3.
Proof.
  pose proof (build_returns 1%Q 1 3 g) as Hret.
  apply returns_ok in Hret as (l & g' & Hrun & _ & Hall & _ & Hone).
  specialize (Hone (Qle_refl 1) ltac:(lia)).
  change (range 0 1) with [0] in Hone.
  destruct l as [|s [|s2 l]]; try discriminate.
  injection Hone as Hcol.
  apply Forall_inv in Hall as [_ (_ & _ & Hmin & Hmax & Hlen & _)].
  change (Z.max 3 (Z.min MIN_STREAM_LENGTH (3 - 1))) with 3 in Hmin.
  change (Z.max 3 (Z.min MAX_STREAM_LENGTH (3 - 1))) with 3 in Hmax.
  exists s, g'. split; [exact Hrun|]. split; [exact Hcol|].
  split; [lia|].
  assert (Hinv : forall t, runs_to 3 s t ->
            min_len t = 3 /\ max_len t <= 3 /\ length_ t = 3).
  { induction 1 as [|t1 t2 ga gb _ (IHmin & IHmax & IHlen) Hupd]; [lia|].
    assert (Hpost : update_post t1 3 t2)
      by (eapply update_inv; [lia | exact Hupd]).
    pose proof (update_post_min_len _ _ _ Hpost) as Hmin2.
    pose proof (update_post_max_len _ _ _ Hpost) as Hmax2.
    change (Z.min MAX_STREAM_LENGTH (3 - 1)) with 2 in Hmax2.
    split; [lia|]. split; [lia|].
    destruct Hpost as [_ -> _|_ _ Hpost|x _ _ _ -> _]; [exact IHlen | |
      exact IHlen].
    rewrite (reset_length_fixed _ _ Hpost); cbn; lia. }
  intros t Hruns. destruct (Hinv t Hruns) as (Hmin_t & Hmax_t & Hlen_t).
  split; [exact Hlen_t|]. intros g1.
  pose proof (_reset_returns t g1 ltac:(lia)) as Hreset.
  apply returns_ok in Hreset as (t' & g2 & Hreset & Hpost).
  exists t', g2. split; [exact Hreset|].
  rewrite (reset_length_fixed _ _ Hpost); lia.
Qed.

(** C7.  After the glyph writes, which all carry an attribute, [draw]
    writes a blank without attribute at row [y - length], column [col],
    if and only if [len(chars) >= length] and that row is in
    [[0, height)] and strictly above [y]; otherwise it writes nothing
    more. *)
Theorem draw_erases_tail (s : RainStream) (screen : Screen) :
  exists glyphs erase,
    snd (draw s screen) = screen ++ glyphs ++ erase
    /\ Forall (fun w => is_Some (Curses.attr w)) glyphs
    /\ ((erase = [Curses.Addstr (y s - length_ s) (col s) blank None]
         /\ (length_ s <= len s
             /\ 0 <= y s - length_ s < height s
             /\ y s - length_ s < y s))
        \/ (erase = []
            /\ ~ (length_ s <= len s
                  /\ 0 <= y s - length_ s < height s
                  /\ y s - length_ s < y s))).
Proof.
  rewrite draw_unfold. cbn [snd].
  exists (spec_glyph_writes s). eexists. split; [reflexivity|].
  split; [apply spec_glyph_writes_attr|].
  unfold erases. case_decide; [left | right]; split; auto.
Qed.

(** C8.  [draw] leaves the stream as it is, and two calls in a row append
    the same sequence of writes to the window. *)
Theorem draw_twice (s : RainStream) (screen : Screen) :
  fst (draw s screen) = s
  /\ fst (draw (fst (draw s screen)) (snd (draw s screen))) = s
  /\ exists writes,
       snd (draw s screen) = screen ++ writes
       /\ snd (draw (fst (draw s screen)) (snd (draw s screen)))
          = (screen ++ writes) ++ writes.
Proof.
  rewrite !draw_unfold. cbn [fst snd]. rewrite ?draw_unfold. cbn [fst snd].
  split; [reflexivity|]. split; [reflexivity|].
  eexists. split; reflexivity.
Qed.

(** C9.  [create_streams] always returns; it returns no stream when
    [height <= 2]; every stream it returns has its column in
    [[0, width)]; and with density 0.0 it returns no stream. *)
Theorem build_columns (density : Q) (w h : Z) (g : Rng) :
  exists l g',
    build density w h g = Ok (l, g')
    /\ (h <= 2 -> l = [])
    /\ Forall (fun s => 0 <= col s < w) l
    /\ ((density == 0)%Q -> l = []).
Proof.
  apply returns_ok. eapply returns_mono; [|apply build_returns].
  intros l g' (Hsmall & Hall & Hzero & _). cbn beta.
  split; [intros Hh; exact (proj1 (Hsmall Hh))|]. split.
  - eapply Forall_impl; [exact Hall|]. intros s [Hcol _]. exact Hcol.
  - intros Hd. apply Hzero. rewrite Hd. apply Qle_refl.
Qed.

(** C10, as the source words it, fails: a call of [update] on which the
    speed counter does not fire also records the height it is given.
    The stream was built for 50 rows and is updated with 10. *)
Lemma update_idle_counterexample :
  exists s' g',
    update_counter sunk_stream + 1 < speed sunk_stream
    /\ update sunk_stream 10 sample_rng = Ok (s', g')
    /\ height s' <> height sunk_stream.
Proof.
  do 2 eexists. split; [cbn; lia|]. split; [vm_compute; reflexivity|].
  cbn. lia.
Qed.

(** C10, amended.  On a call of [update] where the speed counter does not
    fire ([update_counter + 1 < speed]), [y], [length], [speed], [col] and
    the size of the buffer are unchanged, and so are the glyphs at indices
    0 and 1; the only mutations are the replacement of glyphs at indices
    from 2 on by glyphs of the palette, the recording of [current_height]
    in [height], the recomputation of [max_len] from it, and the increment
    of the counter. *)
Theorem update_idle_frame (s : RainStream) (current_height : Z) (g : Rng) :
  update_counter s + 1 < speed s ->
  exists s' g',
    update s current_height g = Ok (s', g')
    /\ s' = mkRainStream (col s) current_height (width s)
              (Z.min MAX_STREAM_LENGTH (current_height - 1)) (min_len s)
              (length_ s) (y s) (speed s) (chars s') (update_counter s + 1)
    /\ len s' = len s
    /\ chars s' !! 0%nat = chars s !! 0%nat
    /\ chars s' !! 1%nat = chars s !! 1%nat
    /\ forall j : nat,
         chars s' !! j = chars s !! j
         \/ ((2 <= j)%nat
             /\ exists c, chars s' !! j = Some c /\ c ∈ CHAR_SET).
Proof.
  intros Hidle. apply returns_ok. rewrite update_idle by exact Hidle.
  eapply returns_mono; [|apply glitch_chars_returns].
  intros s' g' [Heq [Hlen Hall]]. cbn beta. cbn in Hlen, Hall.
  split; [rewrite Heq at 1; reflexivity|].
  split; [unfold len; rewrite Hlen; reflexivity|].
  split; [|split; [|exact Hall]].
  - destruct (Hall 0%nat) as [H0|[H0 _]]; [exact H0 | lia].
  - destruct (Hall 1%nat) as [H1|[H1 _]]; [exact H1 | lia].
Qed.

Lemma update_idle_frame_witness :
  update_counter sunk_stream + 1 < speed sunk_stream
  /\ exists s' g',
       update sunk_stream 10 sample_rng = Ok (s', g')
       /\ s' = mkRainStream (col sunk_stream) 10 (width sunk_stream)
                 (Z.min MAX_STREAM_LENGTH (10 - 1)) (min_len sunk_stream)
                 (length_ sunk_stream) (y sunk_stream) (speed sunk_stream)
                 (chars s') (update_counter sunk_stream + 1)
       /\ len s' = len sunk_stream
       /\ chars s' !! 0%nat = chars sunk_stream !! 0%nat
       /\ chars s' !! 1%nat = chars sunk_stream !! 1%nat
       /\ forall j : nat,
            chars s' !! j = chars sunk_stream !! j
            \/ ((2 <= j)%nat
                /\ exists c, chars s' !! j = Some c /\ c ∈ CHAR_SET).
Proof.
  assert (H1 : update_counter sunk_stream + 1 < speed sunk_stream)
    by (cbn; lia).
  split; [exact H1|].
  exact (update_idle_frame sunk_stream 10 sample_rng H1).
Defined.

(** * Further properties of [draw] *)

Lemma draw_appends (s : RainStream) (screen : Screen) :
  snd (draw s screen) = screen ++ snd (draw s []).
Proof. rewrite !draw_unfold. reflexivity. Qed.

(** What each glyph write of [draw] is. *)
Lemma glyph_write_inv (s : RainStream) (a : Curses.addstr) :
  a ∈ spec_glyph_writes s ->
  exists (i : nat) (c : glyph),
    chars s !! i = Some c
    /\ 0 <= y s - Z.of_nat i < height s
    /\ a = Curses.Addstr (y s - Z.of_nat i) (col s) c
             (Some (style_attr (spec_style (len s) (Z.of_nat i)))).
Proof.
  unfold spec_glyph_writes. intros Ha.
  apply list_elem_of_In, in_concat in Ha as (ws & Hws & Ha).
  apply list_elem_of_In, list_elem_of_lookup in Hws as [i Hi].
  rewrite list_lookup_imap in Hi.
  destruct (chars s !! i) as [c|] eqn:Hc; [|discriminate].
  cbn in Hi. injection Hi as <-.
  destruct (decide (0 <= y s - Z.of_nat i < height s)) as [Hin|Hout].
  - destruct Ha as [<-|[]]. exists i, c. repeat split; assumption || lia.
  - destruct Ha.
Qed.

(** The erase of [draw], when there is one. *)
Lemma erase_write_inv (s : RainStream) (a : Curses.addstr) :
  a ∈ (if decide (erases s)
       then [Curses.Addstr (y s - length_ s) (col s) blank None]
       else []) ->
  erases s /\ a = Curses.Addstr (y s - length_ s) (col s) blank None.
Proof.
  case_decide as He; intros Ha.
  - apply list_elem_of_singleton in Ha. split; assumption.
  - apply elem_of_nil in Ha. destruct Ha.
Qed.

(** X1.  Every [addstr] that [draw] makes is on a row of [[0, height)]
    and on the column of the stream. *)
Theorem draw_writes_in_bounds (s : RainStream) (screen : Screen) :
  exists writes,
    snd (draw s screen) = screen ++ writes
    /\ Forall (fun a => 0 <= Curses.row a < height s
                        /\ Curses.column a = col s) writes.
Proof.
  rewrite draw_unfold. cbn [snd]. eexists. split; [reflexivity|].
  apply Forall_app. split; apply Forall_forall; intros a Ha.
  - apply glyph_write_inv in Ha as (i & c & _ & Hrow & ->). cbn.
    split; [exact Hrow | reflexivity].
  - apply erase_write_inv in Ha as [(_ & Hrow & _) ->]. cbn.
    split; [exact Hrow | reflexivity].
Qed.

(** X2.  When the buffer is within the length of the stream, the blank
    that [draw] writes over the evicted tail is on a row above every glyph
    written in the same call: the glyph rows are all greater than
    [y - length], the row of the blank. *)
Theorem draw_erase_spares_glyphs (s : RainStream) (screen : Screen) :
  len s <= length_ s ->
  exists glyphs erase,
    snd (draw s screen) = screen ++ glyphs ++ erase
    /\ Forall (fun a => is_Some (Curses.attr a)
                        /\ y s - length_ s < Curses.row a) glyphs
    /\ Forall (fun a => Curses.attr a = None
                        /\ Curses.row a = y s - length_ s) erase.
Proof.
  intros Hle. rewrite draw_unfold. cbn [snd]. do 2 eexists.
  split; [reflexivity|]. split; apply Forall_forall; intros a Ha.
  - apply glyph_write_inv in Ha as (i & c & Hc & Hrow & ->). cbn.
    split; [eexists; reflexivity|].
    apply lookup_lt_Some in Hc. unfold len in Hle. lia.
  - apply erase_write_inv in Ha as [_ ->]. cbn. split; reflexivity.
Qed.

Lemma draw_erase_spares_glyphs_witness :
  len sliding_stream <= length_ sliding_stream
  /\ exists glyphs erase,
       snd (draw sliding_stream []) = [] ++ glyphs ++ erase
       /\ Forall (fun a => is_Some (Curses.attr a)
                           /\ y sliding_stream - length_ sliding_stream
                              < Curses.row a) glyphs
       /\ Forall (fun a => Curses.attr a = None
                           /\ Curses.row a
                              = y sliding_stream - length_ sliding_stream)
            erase.
Proof.
  assert (H1 : len sliding_stream <= length_ sliding_stream)
    by (unfold len; cbn; lia).
  split; [exact H1|].
  exact (draw_erase_spares_glyphs sliding_stream [] H1).
Defined.

(** The overlong buffer that the hypothesis of X2 excludes: with eleven
    glyphs for a length of seven, the blank lands on the row of the glyph
    at index 7. *)
Example draw_overlong_buffer :
  let s := set_chars (chars sliding_stream ++ [65377; 65378; 65379; 65380])
             sliding_stream in
  Curses.Addstr 5 4 65377 (Some (Curses.color_pair 1)) ∈ snd (draw s [])
  /\ last (snd (draw s [])) = Some (Curses.Addstr 5 4 blank None).
Proof.
  cbv zeta. split; [|reflexivity].
  apply list_elem_of_lookup. exists 7%nat. reflexivity.
Qed.

Lemma draw_loop_rows (s : RainStream) (n : Z) (cs : list glyph) (i : Z) :
  Forall (fun a => Curses.row a <= y s - i) (draw_loop s n i cs [])
  /\ StronglySorted (fun a b => Curses.row b < Curses.row a)
       (draw_loop s n i cs [])
  /\ (length (draw_loop s n i cs []) <= length cs)%nat.
Proof.
  revert i. induction cs as [|c cs IH]; intros i; cbn [draw_loop].
  - repeat split; constructor.
  - destruct (IH (i + 1)) as (Hrows & Hsorted & Hcount).
    assert (Hrows' : Forall (fun a => Curses.row a < y s - i)
                       (draw_loop s n (i + 1) cs [])).
    { eapply Forall_impl; [exact Hrows|]. intros a Ha. cbn beta in Ha. lia. }
    destruct ((0 <=? y s - i) && (y s - i <? height s)).
    + rewrite draw_loop_app. cbn [app]. split; [|split].
      * constructor; [cbn; lia|].
        eapply Forall_impl; [exact Hrows'|]. intros a Ha. cbn beta in Ha.
        lia.
      * constructor; [exact Hsorted | exact Hrows'].
      * cbn [length]. lia.
    + split; [|split].
      * eapply Forall_impl; [exact Hrows'|]. intros a Ha. cbn beta in Ha.
        lia.
      * exact Hsorted.
      * cbn [length]. lia.
Qed.

(** X3.  [draw] writes at most one glyph per row: its glyph writes go up
    the screen, each on a row strictly above the one before, and there are
    at most [len(chars)] of them. *)
Theorem draw_one_glyph_per_row (s : RainStream) (screen : Screen) :
  exists glyphs erase,
    snd (draw s screen) = screen ++ glyphs ++ erase
    /\ Forall (fun a => is_Some (Curses.attr a)) glyphs
    /\ Forall (fun a => Curses.attr a = None) erase
    /\ StronglySorted (fun a b => Curses.row b < Curses.row a) glyphs
    /\ Z.of_nat (length glyphs) <= len s.
Proof.
  rewrite draw_unfold. cbn [snd]. do 2 eexists. split; [reflexivity|].
  split; [apply spec_glyph_writes_attr|]. split.
  { case_decide; repeat constructor. }
  rewrite <- draw_glyph_writes.
  destruct (draw_loop_rows s (len s) (chars s) 0) as (_ & Hsorted & Hcount).
  split; [exact Hsorted|].
  revert Hcount. generalize (draw_loop s (len s) 0 (chars s) []).
  intros l Hcount. unfold len. lia.
Qed.

(** A stream whose head is above the screen draws nothing. *)
Lemma draw_above_screen (s : RainStream) (screen : Screen) :
  y s < 0 -> snd (draw s screen) = screen.
Proof.
  intros Hy. rewrite draw_unfold. cbn [snd].
  assert (Hg : spec_glyph_writes s = []).
  { destruct (spec_glyph_writes s) as [|a l] eqn:Hl; [reflexivity|].
    assert (Ha : a ∈ spec_glyph_writes s) by (rewrite Hl; left).
    apply glyph_write_inv in Ha as (i & c & _ & Hrow & _). lia. }
  rewrite Hg. case_decide as He; [|apply app_nil_r].
  destruct He as (_ & Hrow & Habove). lia.
Qed.

(** X4.  A stream that [_reset] has just placed is wholly above the
    screen: [draw] makes no write for it, whatever its buffer.  This is
    the state of a stream when the constructor returns and on the frame
    on which [update] recycles it. *)
Theorem reset_then_draw_writes_nothing (s : RainStream) (g : Rng) :
  1 <= min_len s ->
  exists s' g',
    _reset s g = Ok (s', g')
    /\ forall screen : Screen, draw s' screen = (s', screen).
Proof.
  intros Hmin. apply returns_ok.
  eapply returns_mono; [|apply _reset_returns; exact Hmin].
  intros s' g' Hpost. cbn beta. intros screen.
  pose proof (reset_y _ _ Hpost) as Hy.
  pose proof (draw_above_screen s' screen ltac:(lia)) as Hdraw.
  rewrite draw_unfold in Hdraw |- *. cbn [snd] in Hdraw. rewrite Hdraw.
  reflexivity.
Qed.

Lemma reset_then_draw_writes_nothing_witness :
  1 <= min_len sliding_stream
  /\ exists s' g',
       _reset sliding_stream sample_rng = Ok (s', g')
       /\ forall screen : Screen, draw s' screen = (s', screen).
Proof.
  assert (H1 : 1 <= min_len sliding_stream) by (cbn; lia).
  split; [exact H1|].
  exact (reset_then_draw_writes_nothing sliding_stream sample_rng H1).
Defined.
(** * Further properties of [update] *)

Lemma update_post_frame (s s' : RainStream) (h : Z) :
  update_post s h s' ->
  col s' = col s /\ width s' = width s /\ min_len s' = min_len s
  /\ height s' = h /\ max_len s' = Z.min MAX_STREAM_LENGTH (h - 1).
Proof.
  intros [_ -> _|_ _ Hpost|c _ _ _ -> _]; [repeat split| |repeat split].
  destruct Hpost as [Hc Hh Hw Hmax Hmin _ _ _ _ _ _ _ _].
  cbn in Hc, Hh, Hw, Hmax, Hmin. repeat split; assumption.
Qed.

(** X5.  [update] never changes the column, the width or [min_len] of a
    stream; it records the height it is given and sets
    [max_len = min(MAX_STREAM_LENGTH, height - 1)], without the floor of 3
    that the constructor applies. *)
Theorem update_frame (s : RainStream) (current_height : Z) (g : Rng) :
  1 <= min_len s ->
  exists s' g',
    update s current_height g = Ok (s', g')
    /\ col s' = col s /\ width s' = width s /\ min_len s' = min_len s
    /\ height s' = current_height
    /\ max_len s' = Z.min MAX_STREAM_LENGTH (current_height - 1).
Proof.
  intros Hmin. apply returns_ok.
  eapply returns_mono; [|apply update_returns; exact Hmin].
  intros s' g' Hpost. cbn beta. exact (update_post_frame _ _ _ Hpost).
Qed.

Lemma update_frame_witness :
  1 <= min_len falling_stream
  /\ exists s' g',
       update falling_stream 3 sample_rng = Ok (s', g')
       /\ col s' = col falling_stream /\ width s' = width falling_stream
       /\ min_len s' = min_len falling_stream
       /\ height s' = 3
       /\ max_len s' = Z.min MAX_STREAM_LENGTH (3 - 1).
Proof.
  assert (H1 : 1 <= min_len falling_stream) by (cbn; lia).
  split; [exact H1|].
  exact (update_frame falling_stream 3 sample_rng H1).
Defined.

(** X6.  The position of a stream after [update]: it is unchanged on a
    frame where the speed counter does not fire; it is one row lower when
    the counter fires and the stream is still in sight; otherwise the
    stream is recycled to a row of [[-length', -1]].  The counter is
    incremented in the first case and zero in the other two. *)
Theorem update_position (s : RainStream) (current_height : Z) (g : Rng) :
  1 <= min_len s ->
  exists s' g',
    update s current_height g = Ok (s', g')
    /\ ((update_counter s + 1 < speed s
         /\ y s' = y s /\ update_counter s' = update_counter s + 1)
        \/ (speed s <= update_counter s + 1
            /\ y s + 1 < current_height + length_ s
            /\ y s' = y s + 1 /\ update_counter s' = 0)
        \/ (speed s <= update_counter s + 1
            /\ current_height + length_ s <= y s + 1
            /\ - length_ s' <= y s' <= -1 /\ update_counter s' = 0)).
Proof.
  intros Hmin. apply returns_ok.
  eapply returns_mono; [|apply update_returns; exact Hmin].
  intros s' g' [Hidle ->  _|Hfire Hout Hpost|c Hfire Hin _ -> _]; cbn beta.
  - left. repeat split; assumption.
  - right. right. split; [exact Hfire|]. split; [exact Hout|].
    split; [exact (reset_y _ _ Hpost) | exact (reset_counter _ _ Hpost)].
  - right. left. repeat split; assumption.
Qed.

Lemma update_position_witness :
  1 <= min_len falling_stream
  /\ exists s' g',
       update falling_stream 24 sample_rng = Ok (s', g')
       /\ ((update_counter falling_stream + 1 < speed falling_stream
            /\ y s' = y falling_stream
            /\ update_counter s' = update_counter falling_stream + 1)
           \/ (speed falling_stream <= update_counter falling_stream + 1
               /\ y falling_stream + 1 < 24 + length_ falling_stream
               /\ y s' = y falling_stream + 1 /\ update_counter s' = 0)
           \/ (speed falling_stream <= update_counter falling_stream + 1
               /\ 24 + length_ falling_stream <= y falling_stream + 1
               /\ - length_ s' <= y s' <= -1 /\ update_counter s' = 0)).
Proof.
  assert (H1 : 1 <= min_len falling_stream) by (cbn; lia).
  split; [exact H1|].
  exact (update_position falling_stream 24 sample_rng H1).
Defined.

Lemma removelast_cons_lookup {A} (x : A) (l : list A) (j : nat) :
  (j < length l)%nat -> removelast (x :: l) !! j = (x :: l) !! j.
Proof.
  revert x j. induction l as [|z l IH]; intros x j Hj; [cbn in Hj; lia|].
  change (removelast (x :: z :: l)) with (x :: removelast (z :: l)).
  destruct j as [|j]; [reflexivity|].
  cbn [length] in Hj. apply (IH z j). lia.
Qed.

Lemma slid_lookup (s : RainStream) (c : glyph) (j : nat) :
  (j < length (slid s c))%nat -> slid s c !! j = (c :: chars s) !! j.
Proof.
  unfold slid.
  destruct (length_ s <? Z.of_nat (length (c :: chars s))); [|reflexivity].
  rewrite removelast_cons_length. apply removelast_cons_lookup.
Qed.

Lemma slid_exact_length (s : RainStream) (c : glyph) :
  len s <= length_ s ->
  Z.of_nat (length (slid s c)) = Z.min (len s + 1) (length_ s).
Proof.
  unfold len, slid. intros Hle.
  destruct (Z.ltb_spec (length_ s) (Z.of_nat (length (c :: chars s))))
    as [Hover|Hfit].
  - rewrite removelast_cons_length. cbn [length] in Hover. lia.
  - cbn [length] in Hfit |- *. lia.
Qed.

(** X7.  On a frame where the stream moves and stays in sight, the buffer
    shifts by one: a new glyph of the palette is at the head, the former
    head is at index 1, every glyph from index 2 on is the former glyph
    one index up or a glyph of the palette, and the size grows by one
    until it reaches the length of the stream, where it stays. *)
Theorem update_shifts_buffer (s : RainStream) (current_height : Z)
    (g : Rng) :
  speed s <= update_counter s + 1 ->
  y s + 1 < current_height + length_ s ->
  len s <= length_ s -> 2 <= length_ s ->
  exists s' g' c,
    update s current_height g = Ok (s', g')
    /\ c ∈ CHAR_SET
    /\ chars s' !! 0%nat = Some c
    /\ chars s' !! 1%nat = chars s !! 0%nat
    /\ len s' = Z.min (len s + 1) (length_ s)
    /\ forall j : nat,
         (2 <= j)%nat -> Z.of_nat j < len s' ->
         chars s' !! j = chars s !! (j - 1)%nat
         \/ exists c', chars s' !! j = Some c' /\ c' ∈ CHAR_SET.
Proof.
  intros Hfire Hin Hle Hlen2.
  assert (Hret : returns (update s current_height) g
            (fun s' _ => exists c, c ∈ CHAR_SET
                         /\ glitched (slid s c) (chars s'))).
  { rewrite update_slide by assumption. apply returns_bind.
    eapply returns_mono; [|apply _get_random_char_returns].
    intros c g1 Hc. cbn beta.
    assert (Hstep : forall t g2, returns (glitch_chars t) g2
              (fun s' _ => glitched (chars t) (chars s'))).
    { intros t g2. eapply returns_mono; [|apply glitch_chars_returns].
      intros s' g3 [_ Hg]. exact Hg. }
    apply returns_bind.
    assert (Hmid : returns
      (if length_ s <? Z.of_nat (length (c :: chars s))
       then cs <- pop (c :: chars s) ;;
            ret (set_chars cs (moved s current_height))
       else ret (set_chars (c :: chars s) (moved s current_height))) g1
      (fun t _ => chars t = slid s c)).
    { unfold slid. apply returns_if; intros ->.
      - apply returns_bind. apply pop_returns; [discriminate|].
        apply returns_ret. reflexivity.
      - apply returns_ret. reflexivity. }
    eapply returns_mono; [|exact Hmid].
    intros t g2 Ht. cbn beta in Ht |- *.
    eapply returns_mono; [|apply Hstep].
    intros s' g3 Hg. cbn beta in Hg |- *. exists c. rewrite <- Ht.
    split; [exact Hc | exact Hg]. }
  apply returns_ok in Hret as (s' & g' & Hrun & c & Hc & Hlen & Hall).
  exists s', g', c. split; [exact Hrun|]. split; [exact Hc|].
  pose proof (slid_exact_length s c Hle) as Hsize.
  assert (Hlen' : len s' = Z.min (len s + 1) (length_ s))
    by (unfold len at 1; rewrite Hlen; exact Hsize).
  assert (Hpos : 0 <= len s) by (unfold len; lia).
  split; [|split; [|split; [exact Hlen'|]]].
  - destruct (Hall 0%nat) as [H0|[H0 _]]; [|lia].
    rewrite H0, slid_lookup by lia. reflexivity.
  - destruct (Hall 1%nat) as [H1|[H1 _]]; [|lia].
    rewrite H1.
    destruct (decide (1 < length (slid s c))%nat) as [Hin1|Hout1].
    + rewrite slid_lookup by exact Hin1. reflexivity.
    + rewrite (lookup_ge_None_2 (slid s c)) by lia.
      symmetry. apply lookup_ge_None_2. unfold len in Hsize. lia.
  - intros j Hj Hjlen. destruct (Hall j) as [Hsame|[_ Hnew]].
    + left. rewrite Hsame. rewrite slid_lookup by (unfold len in *; lia).
      destruct j as [|j]; [lia|]. cbn. rewrite Nat.sub_0_r. reflexivity.
    + right. exact Hnew.
Qed.

Lemma update_shifts_buffer_witness :
  speed sliding_stream <= update_counter sliding_stream + 1
  /\ y sliding_stream + 1 < 24 + length_ sliding_stream
  /\ len sliding_stream <= length_ sliding_stream
  /\ 2 <= length_ sliding_stream
  /\ exists s' g' c,
       update sliding_stream 24 sample_rng = Ok (s', g')
       /\ c ∈ CHAR_SET
       /\ chars s' !! 0%nat = Some c
       /\ chars s' !! 1%nat = chars sliding_stream !! 0%nat
       /\ len s' = Z.min (len sliding_stream + 1) (length_ sliding_stream)
       /\ forall j : nat,
            (2 <= j)%nat -> Z.of_nat j < len s' ->
            chars s' !! j = chars sliding_stream !! (j - 1)%nat
            \/ exists c', chars s' !! j = Some c' /\ c' ∈ CHAR_SET.
Proof.
  assert (H1 : speed sliding_stream <= update_counter sliding_stream + 1)
    by (cbn; lia).
  assert (H2 : y sliding_stream + 1 < 24 + length_ sliding_stream)
    by (cbn; lia).
  assert (H3 : len sliding_stream <= length_ sliding_stream)
    by (unfold len; cbn; lia).
  assert (H4 : 2 <= length_ sliding_stream) by (cbn; lia).
  split; [exact H1|]. split; [exact H2|]. split; [exact H3|].
  split; [exact H4|].
  exact (update_shifts_buffer sliding_stream 24 sample_rng H1 H2 H3 H4).
Defined.
(** * The invariant of a stream *)

Lemma glitched_palette (cs cs' : list glyph) :
  Forall (fun c => c ∈ CHAR_SET) cs -> glitched cs cs' ->
  Forall (fun c => c ∈ CHAR_SET) cs'.
Proof.
  intros Hcs [_ Hall]. apply Forall_lookup. intros j c Hj.
  destruct (Hall j) as [Hsame|(_ & c' & Hnew & Hc')].
  - rewrite Hsame in Hj. exact (proj1 (Forall_lookup _ _) Hcs j c Hj).
  - rewrite Hnew in Hj. injection Hj as <-. exact Hc'.
Qed.

Lemma removelast_palette (x : glyph) (l : list glyph) :
  Forall (fun c => c ∈ CHAR_SET) (x :: l) ->
  Forall (fun c => c ∈ CHAR_SET) (removelast (x :: l)).
Proof.
  intros Hall. apply Forall_lookup. intros j c Hj.
  assert (Hlt : (j < length l)%nat).
  { apply lookup_lt_Some in Hj. rewrite removelast_cons_length in Hj.
    exact Hj. }
  rewrite removelast_cons_lookup in Hj by exact Hlt.
  exact (proj1 (Forall_lookup _ _) Hall j c Hj).
Qed.

Lemma slid_palette (s : RainStream) (c : glyph) :
  c ∈ CHAR_SET -> Forall (fun x => x ∈ CHAR_SET) (chars s) ->
  Forall (fun x => x ∈ CHAR_SET) (slid s c).
Proof.
  intros Hc Hall. unfold slid.
  destruct (length_ s <? Z.of_nat (length (c :: chars s))).
  - apply removelast_palette. constructor; assumption.
  - constructor; assumption.
Qed.

Lemma update_post_well_formed (s s' : RainStream) (h : Z) :
  well_formed s -> update_post s h s' -> well_formed s'.
Proof.
  intros [Hmin Hmax Hlength Hlen Hspeed Hcounter Hchars].
  unfold MIN_STREAM_LENGTH, MAX_STREAM_LENGTH, STREAM_SPEED_MIN,
    STREAM_SPEED_MAX in *.
  intros [Hidle Heq Hg|Hfire Hout Hpost|c Hfire Hin Hc Heq Hg].
  - pose proof (glitched_palette _ _ Hchars Hg) as Hpal.
    destruct Hg as [Hsize _]. rewrite Heq.
    split; cbn; unfold MIN_STREAM_LENGTH, MAX_STREAM_LENGTH,
      STREAM_SPEED_MIN, STREAM_SPEED_MAX; try lia; try assumption.
    unfold len in *. cbn. rewrite Hsize. lia.
  - destruct Hpost as [_ _ _ Hmax' Hmin' Hlo Hhi _ _ Hv Hcnt Hlen' Hall].
    cbn in Hmax', Hmin', Hlo, Hhi.
    unfold STREAM_SPEED_MIN, STREAM_SPEED_MAX, MAX_STREAM_LENGTH in *.
    split; unfold MIN_STREAM_LENGTH, MAX_STREAM_LENGTH, STREAM_SPEED_MIN,
      STREAM_SPEED_MAX; try lia; try assumption.
  - pose proof (slid_palette s c Hc Hchars) as Hpal0.
    pose proof (glitched_palette _ _ Hpal0 Hg) as Hpal.
    pose proof (slid_exact_length s c (proj2 Hlen)) as Hsize0.
    destruct Hg as [Hsize _]. rewrite Heq.
    split; cbn; unfold MIN_STREAM_LENGTH, MAX_STREAM_LENGTH,
      STREAM_SPEED_MIN, STREAM_SPEED_MAX; try lia; try assumption.
    unfold len in *. cbn. rewrite Hsize. lia.
Qed.

Lemma init_returns_well_formed (c h w : Z) (g : Rng) :
  returns (__init__ c h w) g
    (fun s _ =>
       well_formed s
       /\ col s = c /\ height s = h /\ width s = w
       /\ min_len s <= max_len s
       /\ - length_ s <= y s <= -1).
Proof.
  unfold __init__.
  set (mx := Z.min MAX_STREAM_LENGTH (h - 1)).
  set (mn := Z.min MIN_STREAM_LENGTH mx).
  set (mn' := if mn <=? 2 then 3 else mn).
  set (mx' := if mx <? mn' then mn' else mx).
  assert (Hmn : 3 <= mn' <= 7).
  { subst mn' mn mx. unfold MIN_STREAM_LENGTH, MAX_STREAM_LENGTH.
    destruct (Z.leb_spec (Z.min 7 (Z.min 38 (h - 1))) 2); lia. }
  assert (Hmx : mn' <= mx' <= 38).
  { subst mx' mx. unfold MAX_STREAM_LENGTH.
    destruct (Z.ltb_spec (Z.min 38 (h - 1)) mn'); lia. }
  eapply returns_mono; [|apply _reset_returns; cbn; lia].
  intros s g' [Hc Hh Hw Hmax Hmin Hlo Hhi _ Hy Hv Hcnt Hlen Hall].
  cbn in Hc, Hh, Hw, Hmax, Hmin, Hlo, Hhi.
  unfold STREAM_SPEED_MIN, STREAM_SPEED_MAX in Hv.
  split; [|repeat split; assumption || lia].
  split; unfold MIN_STREAM_LENGTH, MAX_STREAM_LENGTH, STREAM_SPEED_MIN,
    STREAM_SPEED_MAX; try lia; try assumption.
Qed.


(** X9.  [update] keeps the invariant [well_formed], for every height it
    is given and every outcome of the generator: it returns, and the
    stream it leaves is well formed. *)
Theorem update_preserves_well_formed (s : RainStream) (current_height : Z)
    (g : Rng) :
  well_formed s ->
  exists s' g',
    update s current_height g = Ok (s', g') /\ well_formed s'.
Proof.
  intros Hwf. apply returns_ok.
  eapply returns_mono;
    [|apply update_returns; pose proof (wf_min_len _ Hwf); lia].
  intros s' g' Hpost. cbn beta.
  exact (update_post_well_formed _ _ _ Hwf Hpost).
Qed.

(** The invariant of a concrete stream, by evaluation. *)
Ltac well_formed_by_evaluation :=
  split;
  [ unfold MIN_STREAM_LENGTH; cbn; lia
  | unfold MAX_STREAM_LENGTH; cbn; lia
  | unfold MAX_STREAM_LENGTH; cbn; lia
  | unfold len; cbn; lia
  | unfold STREAM_SPEED_MIN, STREAM_SPEED_MAX; cbn; lia
  | cbn; lia
  | apply (bool_decide_unpack _); vm_compute; exact I ].

Lemma update_preserves_well_formed_witness :
  well_formed sliding_stream
  /\ exists s' g',
       update sliding_stream 24 sample_rng = Ok (s', g') /\ well_formed s'.
Proof.
  assert (H1 : well_formed sliding_stream) by well_formed_by_evaluation.
  split; [exact H1|].
  exact (update_preserves_well_formed sliding_stream 24 sample_rng H1).
Defined.

(** X10.  Every stream that the program can hold, built by the
    constructor and then updated any number of times with any heights, is
    well formed. *)
Theorem reachable_well_formed (s : RainStream) :
  reachable s -> well_formed s.
Proof.
  induction 1 as [c h w g g' s Hinit|s s' h g g' _ IH Hupd].
  - exact (proj1 (returns_eq _ _ _ _ _ Hinit
                    (init_returns_well_formed c h w g))).
  - apply (update_post_well_formed s s' h IH).
    eapply update_inv; [pose proof (wf_min_len _ IH); lia | exact Hupd].
Qed.

Lemma reachable_well_formed_witness :
  reachable (mkRainStream 0 3 1 3 3 3 (-2) 8 [65431; 65410] 0)
  /\ well_formed (mkRainStream 0 3 1 3 3 3 (-2) 8 [65431; 65410] 0).
Proof.
  assert (H1 : reachable (mkRainStream 0 3 1 3 3 3 (-2) 8 [65431; 65410] 0)).
  { eapply (reach_init 0 3 1 sample_rng). vm_compute. reflexivity. }
  split; [exact H1|].
  exact (reachable_well_formed _ H1).
Defined.
(** * The speed of a stream *)

Lemma updates_idle (n : nat) (h : Z) :
  forall (s : RainStream) (g : Rng),
    update_counter s + Z.of_nat n < speed s ->
    returns (updates n s h) g
      (fun s' _ =>
         y s' = y s /\ length_ s' = length_ s /\ speed s' = speed s
         /\ min_len s' = min_len s
         /\ update_counter s' = update_counter s + Z.of_nat n
         /\ len s' = len s).
Proof.
  induction n as [|n IH]; intros s g Hlt; cbn [updates].
  - apply returns_ret. repeat split; lia.
  - apply returns_bind. rewrite update_idle by lia.
    eapply returns_mono; [|apply glitch_chars_returns].
    intros s1 g1 [Heq [Hsize _]]. cbn beta.
    assert (Hfields : y s1 = y s /\ length_ s1 = length_ s
                      /\ speed s1 = speed s /\ min_len s1 = min_len s
                      /\ update_counter s1 = update_counter s + 1
                      /\ len s1 = len s).
    { rewrite Heq. unfold len. cbn. rewrite Hsize. repeat split. }
    destruct Hfields as (Hy & Hl & Hv & Hm & Hc & Hn).
    eapply returns_mono; [|apply IH; lia].
    intros s' g' (Hy' & Hl' & Hv' & Hm' & Hc' & Hn'). cbn beta.
    repeat split; lia.
Qed.

(** X11.  A stream whose counter is below its speed stays on its row,
    with the same buffer size, for the next [speed - update_counter - 1]
    calls of [update], and on the call after those it moves one row down
    or is recycled, with its counter back at zero: a stream of speed [v]
    advances once every [v] frames. *)
Theorem stream_moves_every_speed_frames (s : RainStream) (h : Z) (g : Rng) :
  1 <= min_len s ->
  update_counter s < speed s ->
  exists s1 g1 s2 g2,
    updates (Z.to_nat (speed s - update_counter s - 1)) s h g = Ok (s1, g1)
    /\ y s1 = y s /\ len s1 = len s
    /\ update s1 h g1 = Ok (s2, g2)
    /\ update_counter s2 = 0
    /\ (y s2 = y s + 1 \/ - length_ s2 <= y s2 <= -1).
Proof.
  intros Hmin Hlt.
  pose proof (updates_idle (Z.to_nat (speed s - update_counter s - 1)) h
                s g ltac:(lia)) as Hidle.
  apply returns_ok in Hidle
    as (s1 & g1 & Hrun1 & Hy & Hl & Hv & Hm & Hc & Hn).
  pose proof (update_returns s1 h g1 ltac:(lia)) as Hstep.
  apply returns_ok in Hstep as (s2 & g2 & Hrun2 & Hpost).
  exists s1, g1, s2, g2. split; [exact Hrun1|]. split; [exact Hy|].
  split; [exact Hn|]. split; [exact Hrun2|].
  destruct Hpost as [Hidle' _ _|_ _ Hpost|c _ _ _ -> _].
  - lia.
  - split; [exact (reset_counter _ _ Hpost)|].
    right. exact (reset_y _ _ Hpost).
  - cbn. split; [reflexivity | left; lia].
Qed.

Lemma stream_moves_every_speed_frames_witness :
  1 <= min_len sunk_stream
  /\ update_counter sunk_stream < speed sunk_stream
  /\ exists s1 g1 s2 g2,
       updates (Z.to_nat (speed sunk_stream - update_counter sunk_stream - 1))
         sunk_stream 50 sample_rng = Ok (s1, g1)
       /\ y s1 = y sunk_stream /\ len s1 = len sunk_stream
       /\ update s1 50 g1 = Ok (s2, g2)
       /\ update_counter s2 = 0
       /\ (y s2 = y sunk_stream + 1 \/ - length_ s2 <= y s2 <= -1).
Proof.
  assert (H1 : 1 <= min_len sunk_stream) by (cbn; lia).
  assert (H2 : update_counter sunk_stream < speed sunk_stream)
    by (cbn; lia).
  split; [exact H1|]. split; [exact H2|].
  exact (stream_moves_every_speed_frames sunk_stream 50 sample_rng H1 H2).
Defined.

(** * The error of [_reset] *)

(** X12.  On an object whose bounds leave no choice of length
    ([max_len <= min_len]), [_reset] takes [length = min_len]; it returns
    when [min_len >= 1], and otherwise the range [[-length, -1]] of the
    start row is empty and it raises [ValueError]. *)
Theorem reset_fixed_length (s : RainStream) (g : Rng) :
  max_len s <= min_len s ->
  if decide (1 <= min_len s)
  then exists s' g', _reset s g = Ok (s', g') /\ length_ s' = min_len s
  else _reset s g = Raise ValueError.
Proof.
  intros Hle. case_decide as Hmin.
  - apply returns_ok.
    eapply returns_mono; [|apply _reset_returns; exact Hmin].
    intros s' g' Hpost. cbn beta. exact (reset_length_fixed _ _ Hpost Hle).
  - apply _reset_raises; lia.
Qed.

Lemma reset_fixed_length_witness :
  max_len (set_max_len 2 sunk_stream) <= min_len (set_max_len 2 sunk_stream)
  /\ if decide (1 <= min_len (set_max_len 2 sunk_stream))
     then exists s' g',
            _reset (set_max_len 2 sunk_stream) sample_rng = Ok (s', g')
            /\ length_ s' = min_len (set_max_len 2 sunk_stream)
     else _reset (set_max_len 2 sunk_stream) sample_rng = Raise ValueError.
Proof.
  assert (H1 : max_len (set_max_len 2 sunk_stream)
               <= min_len (set_max_len 2 sunk_stream)) by (cbn; lia).
  split; [exact H1|].
  exact (reset_fixed_length (set_max_len 2 sunk_stream) sample_rng H1).
Defined.

(** The error itself, on an object that the constructor never makes. *)
Example reset_raises_value_error :
  _reset (mkRainStream 0 1 1 0 0 0 0 0 [] 0) sample_rng = Raise ValueError.
Proof. reflexivity. Qed.

(** * The fade zone *)

(** X13.  From index 2 on, the attribute that [draw] computes is green,
    dim for the last [(min(FADE_LENGTH, len - 2) + 1) / 2] glyphs of the
    buffer and plain for the others: one dim glyph for a buffer of 3 or 4,
    two for 5 or 6, three from 7 on.  The glyphs of the fade zone that are
    not dim get the attribute of the body. *)
Theorem attributes_fade_zone (stream_len i : Z) :
  2 <= i < stream_len ->
  attributes stream_len i =
  if stream_len - 1 - i <? (Z.min FADE_LENGTH (stream_len - 2) + 1) / 2
  then Z.lor (Curses.color_pair 1) Curses.A_DIM
  else Curses.color_pair 1.
Proof.
  intros Hi. unfold attributes.
  destruct (Z.eqb_spec i 0); [lia|]. destruct (Z.eqb_spec i 1); [lia|].
  cbn [andb]. cbv zeta.
  replace (Z.max 1 (stream_len - 2)) with (stream_len - 2) by lia.
  set (e := Z.min FADE_LENGTH (stream_len - 2)).
  assert (He : 1 <= e <= 5) by (subst e; unfold FADE_LENGTH; lia).
  set (d := stream_len - 1 - i).
  assert (Hhalf : Qltb (inject_Z d) (Qdiv (inject_Z e) (Qmake 2 1))
                  = (d <? (e + 1) / 2)).
  { destruct (Z.ltb_spec d ((e + 1) / 2)) as [Hlt|Hge].
    - apply Qltb_lt, half_lt.
      pose proof (Z.div_mod (e + 1) 2 ltac:(lia)).
      pose proof (Z.mod_pos_bound (e + 1) 2 ltac:(lia)). lia.
    - apply not_true_is_false. intros Hb. apply Qltb_lt, half_lt in Hb.
      pose proof (Z.div_mod (e + 1) 2 ltac:(lia)).
      pose proof (Z.mod_pos_bound (e + 1) 2 ltac:(lia)). lia. }
  rewrite Hhalf.
  destruct (Z.ltb_spec d e) as [Hin|Hout]; [reflexivity|].
  destruct (Z.ltb_spec d ((e + 1) / 2)) as [Hlt|Hge]; [|reflexivity].
  pose proof (Z.div_mod (e + 1) 2 ltac:(lia)).
  pose proof (Z.mod_pos_bound (e + 1) 2 ltac:(lia)). lia.
Qed.

Lemma attributes_fade_zone_witness :
  2 <= 4 < 7
  /\ attributes 7 4 =
     if 7 - 1 - 4 <? (Z.min FADE_LENGTH (7 - 2) + 1) / 2
     then Z.lor (Curses.color_pair 1) Curses.A_DIM
     else Curses.color_pair 1.
Proof.
  assert (H1 : 2 <= 4 < 7) by lia.
  split; [exact H1|].
  exact (attributes_fade_zone 7 4 H1).
Defined.

(** * More on [create_streams] *)

Lemma build_loop_sublist (density : Q) (cols : list Z) (h w : Z)
    (acc : list RainStream) g :
  returns (build_loop density cols h w acc) g
    (fun l _ => exists new, l = acc ++ new /\ map col new `sublist_of` cols).
Proof.
  revert acc g. induction cols as [|c rest IH]; intros acc g;
    cbn [build_loop].
  - apply returns_ret. exists []. rewrite app_nil_r.
    split; [reflexivity | constructor].
  - apply returns_bind. eapply returns_mono; [|apply random_returns].
    intros x g1 _. cbn beta. apply returns_if; intros _.
    + apply returns_bind.
      eapply returns_mono; [|apply __init___returns].
      intros s g2 (Hc & _). cbn beta. eapply returns_mono; [|apply IH].
      intros l g3 (new & -> & Hsub). cbn beta.
      exists (s :: new). rewrite <- app_assoc. split; [reflexivity|].
      cbn [map]. rewrite Hc. apply sublist_skip. exact Hsub.
    + eapply returns_mono; [|apply IH].
      intros l g2 (new & -> & Hsub). cbn beta.
      exists new. split; [reflexivity|]. apply sublist_cons. exact Hsub.
Qed.

(** X14.  The streams that [create_streams] returns are in the order of
    their columns, a subsequence of [0, 1, ..., w - 1]: no two streams
    share a column, and there are at most [w] of them. *)
Theorem build_distinct_columns (density : Q) (w h : Z) (g : Rng) :
  exists l g',
    build density w h g = Ok (l, g')
    /\ map col l `sublist_of` range 0 w
    /\ NoDup (map col l)
    /\ Z.of_nat (length l) <= Z.max 0 w.
Proof.
  apply returns_ok. unfold build.
  assert (Hpost : forall l : list RainStream,
            map col l `sublist_of` range 0 w ->
            map col l `sublist_of` range 0 w /\ NoDup (map col l)
            /\ Z.of_nat (length l) <= Z.max 0 w).
  { intros l Hsub. split; [exact Hsub|]. split.
    - eapply sublist_NoDup; [apply NoDup_seqZ | exact Hsub].
    - apply sublist_length in Hsub. rewrite length_map in Hsub.
      unfold range in Hsub. rewrite length_seqZ in Hsub. lia. }
  destruct (h <=? 2).
  - apply returns_ret. apply Hpost. apply sublist_nil_l.
  - eapply returns_mono; [|apply build_loop_sublist].
    intros l g' (new & -> & Hsub). cbn beta. apply Hpost. exact Hsub.
Qed.
(** * The main loop *)

Lemma puts_app (l1 l2 : list call) : puts (l1 ++ l2) = puts l1 ++ puts l2.
Proof. apply omap_app. Qed.

Lemma puts_map_Put (l : list Curses.addstr) : puts (map Put l) = l.
Proof. induction l as [|a l IH]; [reflexivity|]. cbn. f_equal. exact IH. Qed.

Lemma update_stream_ok (h w : Z) (s : RainStream) g :
  stream_ok h w s ->
  returns (update s h) g (fun s' _ => stream_ok h w s').
Proof.
  intros (Hh & Hcol & Hbig & Hwf).
  eapply returns_mono;
    [|apply update_returns; pose proof (wf_min_len _ Hwf); lia].
  intros s' g' Hpost. cbn beta.
  destruct (update_post_frame _ _ _ Hpost) as (Hc & _ & _ & Hh' & _).
  split; [exact Hh'|]. split; [rewrite Hc; exact Hcol|].
  split; [exact Hbig | exact (update_post_well_formed _ _ _ Hwf Hpost)].
Qed.

Lemma draw_stream_ok (h w : Z) (s : RainStream) :
  stream_ok h w s -> Forall (in_terminal h w) (snd (draw s [])).
Proof.
  intros (Hh & Hcol & _). rewrite draw_unfold. cbn [snd app].
  apply Forall_app. split; apply Forall_forall; intros a Ha.
  - apply glyph_write_inv in Ha as (i & c & _ & Hrow & ->).
    split; cbn; lia.
  - apply erase_write_inv in Ha as [(_ & Hrow & _) ->]. split; cbn; lia.
Qed.

Lemma tick_streams_returns (h w : Z) (ss : list RainStream) (win : Window)
    g :
  Forall (stream_ok h w) ss ->
  returns (tick_streams h ss win) g
    (fun r _ =>
       Forall (stream_ok h w) (fst r)
       /\ length (fst r) = length ss
       /\ exists writes,
            snd r = win ++ map Put writes
            /\ Forall (in_terminal h w) writes).
Proof.
  revert win g. induction ss as [|s rest IH]; intros win g Hall;
    cbn [tick_streams].
  - apply returns_ret. cbn. split; [constructor|]. split; [reflexivity|].
    exists []. rewrite app_nil_r. split; [reflexivity | constructor].
  - inversion Hall as [|? ? Hs Hrest]; subst.
    apply returns_bind.
    eapply returns_mono; [|apply update_stream_ok; exact Hs].
    intros s' g1 Hs'. cbn beta. apply returns_bind.
    eapply returns_mono; [|apply IH; exact Hrest].
    intros [ss' win'] g2 (Hall' & Hlen & writes & Hwin & Hin). cbn beta.
    apply returns_ret. cbn [fst snd] in *.
    split; [constructor; assumption|]. split; [cbn; congruence|].
    exists (snd (draw s' []) ++ writes). split.
    + rewrite Hwin. unfold draw_on. rewrite map_app, app_assoc.
      reflexivity.
    + apply Forall_app. split; [apply draw_stream_ok; exact Hs' | exact Hin].
Qed.

Lemma build_loop_forall (P : RainStream -> Prop) (density : Q)
    (cols : list Z) (h w : Z) (acc : list RainStream) g :
  (forall c g1, c ∈ cols -> returns (__init__ c h w) g1 (fun s _ => P s)) ->
  Forall P acc ->
  returns (build_loop density cols h w acc) g (fun l _ => Forall P l).
Proof.
  revert acc g. induction cols as [|c rest IH]; intros acc g Hinit Hacc;
    cbn [build_loop].
  - apply returns_ret. exact Hacc.
  - assert (Hrest : forall c0 g1, c0 ∈ rest ->
              returns (__init__ c0 h w) g1 (fun s _ => P s))
      by (intros c0 g1 Hc0; apply Hinit; right; exact Hc0).
    apply returns_bind. eapply returns_mono; [|apply random_returns].
    intros x g1 _. cbn beta. apply returns_if; intros _.
    + apply returns_bind. eapply returns_mono; [|apply Hinit; left].
      intros s g2 Hs. cbn beta. apply IH; [exact Hrest|].
      apply Forall_app. split; [exact Hacc | constructor; [exact Hs|constructor]].
    + apply IH; assumption.
Qed.

Lemma create_streams_ok (w h : Z) g :
  returns (create_streams w h) g (fun l _ => Forall (stream_ok h w) l).
Proof.
  unfold create_streams, build. destruct (Z.leb_spec h 2) as [Hsmall|Hbig].
  - apply returns_ret. constructor.
  - apply build_loop_forall; [|constructor].
    intros c g1 Hc. unfold range in Hc. apply elem_of_seqZ in Hc.
    eapply returns_mono; [|apply init_returns_well_formed].
    intros s g2 (Hwf & Hcol & Hh & _). cbn beta.
    split; [exact Hh|]. split; [lia|]. split; [exact Hbig | exact Hwf].
Qed.

(** What one iteration does to the variables of the loop and to the
    window. *)
Lemma iteration_returns (key : Z) (maxyx : Z * Z) (st : Loop) g :
  loop_ok st ->
  returns (iteration key maxyx st) g
    (fun o _ =>
       match o with
       | Break => key = KEY_Q \/ key = KEY_ESC
       | Continue st' =>
           key <> KEY_Q /\ key <> KEY_ESC
           /\ loop_ok st'
           /\ exists calls,
                window st' = window st ++ calls
                /\ Forall (in_terminal (loop_height st) (loop_width st))
                     (puts calls)
       end).
Proof.
  intros Hok. unfold iteration. cbv zeta.
  destruct (Z.eqb_spec key KEY_Q) as [Hq|Hq];
    [apply returns_ret; left; exact Hq|].
  destruct (Z.eqb_spec key KEY_ESC) as [Hesc|Hesc];
    [apply returns_ret; right; exact Hesc|].
  cbn [orb].
  destruct (key =? KEY_RESIZE).
  - destruct (negb (fst maxyx =? loop_height st)
              || negb (snd maxyx =? loop_width st)).
    + destruct ((fst maxyx <=? 2) || (snd maxyx <=? 0)).
      * apply returns_ret. split; [exact Hq|]. split; [exact Hesc|].
        split; [constructor|]. eexists. split; [reflexivity|]. constructor.
      * apply returns_bind.
        eapply returns_mono; [|apply create_streams_ok].
        intros l g1 Hl. cbn beta. apply returns_ret.
        split; [exact Hq|]. split; [exact Hesc|]. split; [exact Hl|].
        eexists. split; [reflexivity|]. constructor.
    + apply returns_ret. split; [exact Hq|]. split; [exact Hesc|].
      split; [exact Hok|]. exists []. rewrite app_nil_r.
      split; [reflexivity | constructor].
  - apply returns_bind.
    eapply returns_mono; [|apply tick_streams_returns; exact Hok].
    intros [ss win] g1 (Hall & _ & writes & Hwin & Hin). cbn [fst snd] in *.
    apply returns_bind.
    assert (Hputs : puts ([Erase] ++ map Put writes) = writes)
      by (rewrite puts_app, puts_map_Put; reflexivity).
    destruct (negb match streams st with [] => false | _ :: _ => true end
              && (0 <? loop_width st) && (2 <? loop_height st)).
    + destruct ((50 <? frame_count st)
                && match ss with [] => true | _ :: _ => false end).
      * apply returns_bind.
        eapply returns_mono; [|apply create_streams_ok].
        intros l g2 Hl. cbn beta. apply returns_ret. apply returns_ret.
        cbn [fst snd]. split; [exact Hq|]. split; [exact Hesc|].
        split; [exact Hl|]. eexists. split.
        -- rewrite Hwin, <- !app_assoc. reflexivity.
        -- rewrite !puts_app, puts_map_Put. cbn. rewrite !app_nil_r.
           exact Hin.
      * apply returns_ret. apply returns_ret. cbn [fst snd].
        split; [exact Hq|]. split; [exact Hesc|]. split; [exact Hall|].
        eexists. split.
        -- rewrite Hwin, <- !app_assoc. reflexivity.
        -- rewrite !puts_app, puts_map_Put. cbn. rewrite !app_nil_r.
           exact Hin.
    + apply returns_ret. apply returns_ret. cbn [fst snd].
      split; [exact Hq|]. split; [exact Hesc|]. split; [exact Hall|].
      eexists. split.
      * rewrite Hwin, <- !app_assoc. reflexivity.
      * rewrite !puts_app, puts_map_Put. cbn. rewrite !app_nil_r.
        exact Hin.
Qed.
Lemma run_returns (inputs : list (Z * (Z * Z))) :
  forall (st : Loop) (g : Rng),
    loop_ok st -> Forall on_screen (puts (window st)) ->
    returns (run inputs st) g
      (fun st' _ => loop_ok st' /\ Forall on_screen (puts (window st'))).
Proof.
  induction inputs as [|[key maxyx] rest IH]; intros st g Hok Hwin;
    cbn [run].
  - apply returns_ret. split; assumption.
  - apply returns_bind.
    eapply returns_mono; [|apply iteration_returns; exact Hok].
    intros [st'|] g1 Ho; cbn beta.
    + destruct Ho as (_ & _ & Hok' & calls & Hcalls & Hin).
      apply IH; [exact Hok'|]. rewrite Hcalls, puts_app.
      apply Forall_app. split; [exact Hwin|].
      eapply Forall_impl; [exact Hin|].
      intros a [Hrow Hcol]. split; lia.
    + apply returns_ret. split; assumption.
Qed.

(** X15.  One iteration of the loop of [main] keeps its invariant and
    raises nothing: when every stream is well formed, has the height of
    the loop and a column inside its width, the iteration returns; it
    breaks exactly on the keys [q] and escape, and otherwise the streams it
    leaves again fit the height and width it leaves. *)
Theorem iteration_keeps_loop_ok (key : Z) (maxyx : Z * Z) (st : Loop)
    (g : Rng) :
  loop_ok st ->
  exists o g',
    iteration key maxyx st g = Ok (o, g')
    /\ match o with
       | Break => key = KEY_Q \/ key = KEY_ESC
       | Continue st' => key <> KEY_Q /\ key <> KEY_ESC /\ loop_ok st'
       end.
Proof.
  intros Hok. apply returns_ok.
  eapply returns_mono; [|apply iteration_returns; exact Hok].
  intros [st'|] g' Ho; cbn beta; [|exact Ho].
  destruct Ho as (Hq & Hesc & Hok' & _). repeat split; assumption.
Qed.

(** The invariant of a concrete state of the loop, by evaluation. *)
Ltac stream_ok_by_evaluation :=
  split; [reflexivity|]; split; [cbn; lia|]; split;
  [lia | well_formed_by_evaluation].

Ltac loop_ok_by_evaluation :=
  unfold loop_ok; cbn [streams loop_height loop_width sample_loop];
  repeat (first [ apply List.Forall_nil
                | apply List.Forall_cons; [stream_ok_by_evaluation|] ]).

Lemma iteration_keeps_loop_ok_witness :
  loop_ok sample_loop
  /\ exists o g',
       iteration 0 (24, 80) sample_loop sample_rng = Ok (o, g')
       /\ match o with
          | Break => 0 = KEY_Q \/ 0 = KEY_ESC
          | Continue st' => 0 <> KEY_Q /\ 0 <> KEY_ESC /\ loop_ok st'
          end.
Proof.
  assert (H1 : loop_ok sample_loop) by loop_ok_by_evaluation.
  split; [exact H1|].
  exact (iteration_keeps_loop_ok 0 (24, 80) sample_loop sample_rng H1).
Defined.

Lemma frame_returns (key : Z) (maxyx : Z * Z) (st : Loop) g :
  loop_ok st ->
  key <> KEY_Q -> key <> KEY_ESC -> key <> KEY_RESIZE ->
  returns (iteration key maxyx st) g
    (fun o _ =>
       exists st' calls,
         o = Continue st'
         /\ window st' = window st ++ [Erase] ++ calls ++ [Refresh]
         /\ Forall (fun c =>
                      match c with
                      | Put a =>
                          in_terminal (loop_height st) (loop_width st) a
                      | PutText _ _ _ => streams st = []
                      | _ => False
                      end) calls
         /\ frame_count st' = frame_count st + 1
         /\ loop_height st' = loop_height st
         /\ loop_width st' = loop_width st).
Proof.
  intros Hok Hq Hesc Hres. unfold iteration. cbv zeta.
  destruct (Z.eqb_spec key KEY_Q); [contradiction|].
  destruct (Z.eqb_spec key KEY_ESC); [contradiction|].
  destruct (Z.eqb_spec key KEY_RESIZE); [contradiction|].
  cbn [orb]. apply returns_bind.
  eapply returns_mono; [|apply tick_streams_returns; exact Hok].
  intros [ss win] g1 (_ & _ & writes & Hwin & Hin). cbn [fst snd] in *.
  assert (Hputs : Forall (fun c =>
            match c with
            | Put a => in_terminal (loop_height st) (loop_width st) a
            | PutText _ _ _ => streams st = []
            | _ => False
            end) (map Put writes)).
  { apply Forall_fmap. eapply Forall_impl; [exact Hin|].
    intros a Ha. exact Ha. }
  apply returns_bind.
  destruct (streams st) as [|s0 rest] eqn:Hss; cbn [negb andb].
  - destruct ((0 <? loop_width st) && (2 <? loop_height st)).
    + assert (Hmsg : Forall (fun c =>
                match c with
                | Put a => in_terminal (loop_height st) (loop_width st) a
                | PutText _ _ _ => @nil RainStream = []
                | _ => False
                end)
                (map Put writes
                 ++ [PutText (loop_height st / 2) (loop_width st / 2 - 10)
                       Messages.waiting])).
      { apply Forall_app. split; [exact Hputs|].
        constructor; [reflexivity | constructor]. }
      destruct ((50 <? frame_count st)
                && match ss with [] => true | _ :: _ => false end).
      * apply returns_bind.
        eapply returns_mono; [|apply create_streams_ok].
        intros l g2 _. cbn beta. apply returns_ret. apply returns_ret.
        cbn [fst snd]. eexists. exists (map Put writes
                 ++ [PutText (loop_height st / 2) (loop_width st / 2 - 10)
                       Messages.waiting]).
        split; [reflexivity|]. cbn [window frame_count loop_height loop_width].
        split; [rewrite Hwin, <- !app_assoc; reflexivity|].
        split; [exact Hmsg | repeat split].
      * apply returns_ret. apply returns_ret. cbn [fst snd].
        eexists. exists (map Put writes
                 ++ [PutText (loop_height st / 2) (loop_width st / 2 - 10)
                       Messages.waiting]).
        split; [reflexivity|]. cbn [window frame_count loop_height loop_width].
        split; [rewrite Hwin, <- !app_assoc; reflexivity|].
        split; [exact Hmsg | repeat split].
    + apply returns_ret. apply returns_ret. cbn [fst snd].
      eexists. exists (map Put writes).
      split; [reflexivity|]. cbn [window frame_count loop_height loop_width].
      split; [rewrite Hwin, <- !app_assoc; reflexivity|].
      split; [exact Hputs | repeat split].
  - apply returns_ret. apply returns_ret. cbn [fst snd].
    eexists. exists (map Put writes).
    split; [reflexivity|]. cbn [window frame_count loop_height loop_width].
    split; [rewrite Hwin, <- !app_assoc; reflexivity|].
    split; [exact Hputs | repeat split].
Qed.

(** X16.  A frame of the main loop (a key other than [q], escape and the
    resize event) is bracketed by [erase()] and [refresh()]; between them
    every stream write is inside the terminal, on a row of
    [[0, height)] and a column of [[0, width)], and a message is written
    only when there is no stream; the frame counts one more and keeps the
    size. *)
Theorem frame_writes_in_terminal (key : Z) (maxyx : Z * Z) (st : Loop)
    (g : Rng) :
  loop_ok st ->
  key <> KEY_Q -> key <> KEY_ESC -> key <> KEY_RESIZE ->
  exists st' g' calls,
    iteration key maxyx st g = Ok (Continue st', g')
    /\ window st' = window st ++ [Erase] ++ calls ++ [Refresh]
    /\ Forall (fun c =>
                 match c with
                 | Put a => in_terminal (loop_height st) (loop_width st) a
                 | PutText _ _ _ => streams st = []
                 | _ => False
                 end) calls
    /\ frame_count st' = frame_count st + 1
    /\ loop_height st' = loop_height st
    /\ loop_width st' = loop_width st.
Proof.
  intros Hok Hq Hesc Hres.
  pose proof (frame_returns key maxyx st g Hok Hq Hesc Hres) as Hret.
  apply returns_ok in Hret as (o & g' & Hrun & st' & calls & -> & Hrest).
  exists st', g', calls. split; [exact Hrun | exact Hrest].
Qed.

Lemma frame_writes_in_terminal_witness :
  loop_ok sample_loop
  /\ 0 <> KEY_Q /\ 0 <> KEY_ESC /\ 0 <> KEY_RESIZE
  /\ exists st' g' calls,
       iteration 0 (24, 80) sample_loop sample_rng = Ok (Continue st', g')
       /\ window st' = window sample_loop ++ [Erase] ++ calls ++ [Refresh]
       /\ Forall (fun c =>
                    match c with
                    | Put a => in_terminal (loop_height sample_loop)
                                 (loop_width sample_loop) a
                    | PutText _ _ _ => streams sample_loop = []
                    | _ => False
                    end) calls
       /\ frame_count st' = frame_count sample_loop + 1
       /\ loop_height st' = loop_height sample_loop
       /\ loop_width st' = loop_width sample_loop.
Proof.
  assert (H1 : loop_ok sample_loop) by loop_ok_by_evaluation.
  assert (H2 : 0 <> KEY_Q) by discriminate.
  assert (H3 : 0 <> KEY_ESC) by discriminate.
  assert (H4 : 0 <> KEY_RESIZE) by discriminate.
  split; [exact H1|]. split; [exact H2|]. split; [exact H3|].
  split; [exact H4|].
  exact (frame_writes_in_terminal 0 (24, 80) sample_loop sample_rng
           H1 H2 H3 H4).
Defined.

(** X17.  On a resize event that reports a new size, the loop takes the
    new size and replaces its streams without drawing and without
    counting a frame: for a size with [height <= 2] or [width <= 0] it
    shows the message and holds no stream; otherwise it clears the window
    and holds the streams that [create_streams] builds for the new size.
    In both cases the new state satisfies the invariant of the loop,
    whatever the state before. *)
Theorem resize_rebuilds (maxyx : Z * Z) (st : Loop) (g : Rng) :
  fst maxyx <> loop_height st \/ snd maxyx <> loop_width st ->
  exists st' g',
    iteration KEY_RESIZE maxyx st g = Ok (Continue st', g')
    /\ loop_height st' = fst maxyx /\ loop_width st' = snd maxyx
    /\ frame_count st' = frame_count st
    /\ loop_ok st'
    /\ if decide (fst maxyx <= 2 \/ snd maxyx <= 0)
       then streams st' = [] /\ g' = g
            /\ window st' = window st
                 ++ [Clear; PutText 0 0 Messages.too_small; Refresh]
       else create_streams (snd maxyx) (fst maxyx) g = Ok (streams st', g')
            /\ window st' = window st ++ [Clear; Refresh].
Proof.
  intros Hnew. unfold iteration. cbv zeta. cbn [orb Z.eqb KEY_RESIZE KEY_Q
    KEY_ESC Pos.eqb].
  assert (Hchanged : negb (fst maxyx =? loop_height st)
                     || negb (snd maxyx =? loop_width st) = true).
  { destruct (Z.eqb_spec (fst maxyx) (loop_height st));
      destruct (Z.eqb_spec (snd maxyx) (loop_width st)); cbn; try reflexivity.
    destruct Hnew; contradiction. }
  rewrite Hchanged.
  case_decide as Hsmall.
  - assert (Hb : (fst maxyx <=? 2) || (snd maxyx <=? 0) = true).
    { destruct (Z.leb_spec (fst maxyx) 2); [reflexivity|].
      destruct (Z.leb_spec (snd maxyx) 0); [reflexivity|]. lia. }
    rewrite Hb. do 2 eexists. split; [reflexivity|]. cbn.
    repeat split. constructor.
  - assert (Hb : (fst maxyx <=? 2) || (snd maxyx <=? 0) = false).
    { destruct (Z.leb_spec (fst maxyx) 2); [lia|].
      destruct (Z.leb_spec (snd maxyx) 0); [lia|]. reflexivity. }
    rewrite Hb.
    pose proof (create_streams_ok (snd maxyx) (fst maxyx) g) as Hret.
    apply returns_ok in Hret as (l & g' & Hrun & Hl).
    exists (mkLoop (fst maxyx) (snd maxyx) l (frame_count st)
              (window st ++ [Clear; Refresh])), g'.
    unfold bind. rewrite Hrun. cbn. repeat split. exact Hl.
Qed.

Lemma resize_rebuilds_witness :
  (fst (10, 40) <> loop_height sample_loop
   \/ snd (10, 40) <> loop_width sample_loop)
  /\ exists st' g',
       iteration KEY_RESIZE (10, 40) sample_loop sample_rng
       = Ok (Continue st', g')
       /\ loop_height st' = fst (10, 40) /\ loop_width st' = snd (10, 40)
       /\ frame_count st' = frame_count sample_loop
       /\ loop_ok st'
       /\ if decide (fst (10, 40) <= 2 \/ snd (10, 40) <= 0)
          then streams st' = [] /\ g' = sample_rng
               /\ window st' = window sample_loop
                    ++ [Clear; PutText 0 0 Messages.too_small; Refresh]
          else create_streams (snd (10, 40)) (fst (10, 40)) sample_rng
               = Ok (streams st', g')
               /\ window st' = window sample_loop ++ [Clear; Refresh].
Proof.
  assert (H1 : fst (10, 40) <> loop_height sample_loop
               \/ snd (10, 40) <> loop_width sample_loop)
    by (left; cbn; lia).
  split; [exact H1|].
  exact (resize_rebuilds (10, 40) sample_loop sample_rng H1).
Defined.
(** X18.  With no stream on a terminal that can hold some
    ([width > 0], [height > 2]), a frame writes the waiting message at row
    [height // 2], column [width // 2 - 10] and nothing else; it leaves
    the loop without streams while [frame_count <= 50], and from frame 51
    on it holds the streams that [create_streams] builds on that frame. *)
Theorem idle_frame_retries (key : Z) (maxyx : Z * Z) (st : Loop) (g : Rng) :
  streams st = [] -> 0 < loop_width st -> 2 < loop_height st ->
  key <> KEY_Q -> key <> KEY_ESC -> key <> KEY_RESIZE ->
  exists st' g',
    iteration key maxyx st g = Ok (Continue st', g')
    /\ window st' = window st
         ++ [Erase;
             PutText (loop_height st / 2) (loop_width st / 2 - 10)
               Messages.waiting;
             Refresh]
    /\ frame_count st' = frame_count st + 1
    /\ if decide (50 < frame_count st)
       then create_streams (loop_width st) (loop_height st) g
            = Ok (streams st', g')
       else streams st' = [] /\ g' = g.
Proof.
  intros Hnone Hw Hh Hq Hesc Hres. unfold iteration. cbv zeta.
  destruct (Z.eqb_spec key KEY_Q); [contradiction|].
  destruct (Z.eqb_spec key KEY_ESC); [contradiction|].
  destruct (Z.eqb_spec key KEY_RESIZE); [contradiction|].
  rewrite Hnone. cbn [orb tick_streams negb andb]. unfold bind at 1.
  cbn [ret fst snd].
  destruct (Z.ltb_spec 0 (loop_width st)); [|lia].
  destruct (Z.ltb_spec 2 (loop_height st)); [|lia].
  cbn [andb]. case_decide as Hlate.
  - destruct (Z.ltb_spec 50 (frame_count st)); [|lia]. cbn [andb].
    pose proof (create_streams_ok (loop_width st) (loop_height st) g)
      as Hret.
    apply returns_ok in Hret as (l & g' & Hrun & _).
    unfold bind. rewrite Hrun. cbn [ret fst snd].
    do 2 eexists. split; [reflexivity|].
    cbn [window frame_count streams]. rewrite <- !app_assoc.
    repeat split.
  - destruct (Z.ltb_spec 50 (frame_count st)); [lia|]. cbn [andb].
    unfold bind, ret. cbn [fst snd].
    do 2 eexists. split; [reflexivity|].
    cbn [window frame_count streams]. rewrite <- !app_assoc.
    repeat split.
Qed.

Lemma idle_frame_retries_witness :
  streams idle_loop = [] /\ 0 < loop_width idle_loop
  /\ 2 < loop_height idle_loop
  /\ 0 <> KEY_Q /\ 0 <> KEY_ESC /\ 0 <> KEY_RESIZE
  /\ exists st' g',
       iteration 0 (24, 80) idle_loop sample_rng = Ok (Continue st', g')
       /\ window st' = window idle_loop
            ++ [Erase;
                PutText (loop_height idle_loop / 2)
                  (loop_width idle_loop / 2 - 10) Messages.waiting;
                Refresh]
       /\ frame_count st' = frame_count idle_loop + 1
       /\ if decide (50 < frame_count idle_loop)
          then create_streams (loop_width idle_loop) (loop_height idle_loop)
                 sample_rng = Ok (streams st', g')
          else streams st' = [] /\ g' = sample_rng.
Proof.
  assert (H1 : streams idle_loop = []) by reflexivity.
  assert (H2 : 0 < loop_width idle_loop) by (cbn; lia).
  assert (H3 : 2 < loop_height idle_loop) by (cbn; lia).
  assert (H4 : 0 <> KEY_Q) by discriminate.
  assert (H5 : 0 <> KEY_ESC) by discriminate.
  assert (H6 : 0 <> KEY_RESIZE) by discriminate.
  split; [exact H1|]. split; [exact H2|]. split; [exact H3|].
  split; [exact H4|]. split; [exact H5|]. split; [exact H6|].
  exact (idle_frame_retries 0 (24, 80) idle_loop sample_rng
           H1 H2 H3 H4 H5 H6).
Defined.

(** X19.  From its initialization on, for every terminal size, every
    sequence of keys and reported sizes and every outcome of the
    generator, the loop of [main] raises nothing, every stream it holds
    is well formed and fits the height and width the loop holds, and
    every stream write made on the window has a non-negative row and
    column. *)
Theorem run_keeps_loop_ok (maxyx : Z * Z) (inputs : list (Z * (Z * Z)))
    (g : Rng) :
  exists st g',
    (st0 <- start maxyx ;; run inputs st0) g = Ok (st, g')
    /\ loop_ok st
    /\ Forall on_screen (puts (window st)).
Proof.
  apply returns_ok. apply returns_bind. unfold start. apply returns_bind.
  eapply returns_mono; [|apply create_streams_ok].
  intros l g1 Hl. cbn beta. apply returns_ret.
  apply run_returns; [exact Hl | constructor].
Qed.

(** A run of the loop: two frames, a resize to 10 rows and 4 columns, a
    frame, then [q]; the input after [q] is not read. *)
Example run_sample :
  option_map (fun st => (loop_height st, loop_width st, frame_count st,
                         map col (streams st)))
    (value ((st0 <- start (24, 6) ;;
             run [(0, (24, 6)); (0, (24, 6)); (KEY_RESIZE, (10, 4));
                  (0, (10, 4)); (KEY_Q, (10, 4)); (0, (10, 4))] st0)
              sample_rng))
  = Some (10, 4, 3, [1; 2]).
Proof. vm_compute. reflexivity. Qed.
(** * The head and the palette *)

(** X20.  When the buffer is not empty and the head row [y] is on the
    screen, the first write of [draw] is the head glyph at row [y], column
    [col], in white and bold. *)
Theorem draw_head_first (s : RainStream) (screen : Screen) (c : glyph)
    (rest : list glyph) :
  chars s = c :: rest -> 0 <= y s < height s ->
  exists more,
    snd (draw s screen) =
    screen
    ++ Curses.Addstr (y s) (col s) c
         (Some (Z.lor (Curses.color_pair 2) HEAD_CHAR_BRIGHTNESS))
       :: more.
Proof.
  intros Hchars Hrow. rewrite draw_unfold. cbn [snd].
  unfold spec_glyph_writes. rewrite Hchars, imap_cons. cbn [concat].
  change (Z.of_nat 0) with 0. rewrite Z.sub_0_r.
  destruct (decide (0 <= y s < height s)) as [_|Hout]; [|contradiction].
  cbn [app]. eexists. reflexivity.
Qed.

Lemma draw_head_first_witness :
  chars sliding_stream
  = 65377 :: [65400; 65381; 65412; 65390; 65401; 65433]
  /\ 0 <= y sliding_stream < height sliding_stream
  /\ exists more,
       snd (draw sliding_stream []) =
       []
       ++ Curses.Addstr (y sliding_stream) (col sliding_stream) 65377
            (Some (Z.lor (Curses.color_pair 2) HEAD_CHAR_BRIGHTNESS))
          :: more.
Proof.
  assert (H1 : chars sliding_stream
               = 65377 :: [65400; 65381; 65412; 65390; 65401; 65433])
    by reflexivity.
  assert (H2 : 0 <= y sliding_stream < height sliding_stream)
    by (cbn; lia).
  split; [exact H1|]. split; [exact H2|].
  exact (draw_head_first sliding_stream [] 65377 _ H1 H2).
Defined.

(** X21.  The palette holds 62 distinct glyphs, the code points U+FF61 to
    U+FF9E, and [_get_random_char] never raises: it returns one of them. *)
Theorem get_random_char_in_palette (g : Rng) :
  length CHAR_SET = 62%nat
  /\ NoDup CHAR_SET
  /\ exists c g',
       _get_random_char g = Ok (c, g')
       /\ c ∈ CHAR_SET /\ 0xFF61 <= c <= 0xFF9E.
Proof.
  split; [reflexivity|]. split; [apply NoDup_seqZ|].
  apply returns_ok.
  eapply returns_mono; [|apply _get_random_char_returns].
  intros c g' Hc. cbn beta in Hc |- *. split; [exact Hc|].
  unfold CHAR_SET, range in Hc. apply elem_of_seqZ in Hc. lia.
Qed.
